(** * MeteorGuard: the impact visualisation and orchestration core

    A shallow embedding of [frontend/src/App.tsx]: the ring generator
    [circle], the memoised overlay [layers], and the two request pipelines
    ([runSim] and the click handler of the refresh button) with the React
    state they drive.

    JavaScript numbers stay abstract behind the interface [Number], so that
    every structural fact holds for whatever arithmetic runs the code.  The
    instance is IEEE binary64 ([Float64], [JsFloat]), the arithmetic a
    browser uses; real numbers appear only as the values of binary64
    numbers ([F2R]), to bound rounding errors.

    Part I holds the definitions, Part II the lemmas and theorems. *)

From Stdlib Require Import ZArith String List Bool Lia.
From Stdlib Require Import Floats.
From Stdlib Require Import Reals Lra.
Import ListNotations.

Set Implicit Arguments.

(** * Part I: the program *)

(** ** Numbers *)

(** The operations of a JavaScript [number] that the program uses.  [lit]
    reads an integer literal, or an integer loop counter, as a number. *)
Class Number (num : Type) : Type := {
  lit : Z -> num;
  num_add : num -> num -> num;
  num_sub : num -> num -> num;
  num_mul : num -> num -> num;
  num_div : num -> num -> num;
  Math_cos : num -> num;
  Math_sin : num -> num;
  Math_sqrt : num -> num;
  Math_PI : num
}.

Declare Scope num_scope.
Delimit Scope num_scope with num.
Infix "+" := num_add : num_scope.
Infix "-" := num_sub : num_scope.
Infix "*" := num_mul : num_scope.
Infix "/" := num_div : num_scope.

(** An integer as a binary64 value (exact below 2^53, rounded above). *)
Definition float_of_Z (z : Z) : float :=
  match z with
  | Z0 => PrimFloat.zero
  | Zpos _ => PrimFloat.of_uint63 (Uint63.of_Z z)
  | Zneg p => PrimFloat.opp (PrimFloat.of_uint63 (Uint63.of_Z (Zpos p)))
  end.

(** [Math.PI] is the binary64 value nearest to pi. *)
Definition float_PI : float := 0x1.921fb54442d18p+1%float.

(** IEEE binary64 arithmetic.  ECMAScript leaves [Math.cos] and [Math.sin]
    implementation-approximated, so the instance takes them as arguments;
    the language fixes only a few of their values, among them
    [Math.cos(0) = 1] and [Math.sin(0) = 0]. *)
Definition Float64 (fcos fsin : float -> float) : Number float := {|
  lit := float_of_Z;
  num_add := PrimFloat.add;
  num_sub := PrimFloat.sub;
  num_mul := PrimFloat.mul;
  num_div := PrimFloat.div;
  Math_cos := fcos;
  Math_sin := fsin;
  Math_sqrt := PrimFloat.sqrt;
  Math_PI := float_PI
|}.

(** Horner evaluation of [c0 + y*(c1 + y*(c2 + ...))] in binary64. *)
Fixpoint horner (coeffs : list float) (y : float) : float :=
  match coeffs with
  | [] => PrimFloat.zero
  | c :: rest => PrimFloat.add c (PrimFloat.mul y (horner rest y))
  end.

(** The signed reciprocal factorials [(-1)^k / (2k + parity)!], [n] of them
    from index [k] on, [term] being the one of index [k]. *)
Fixpoint series_coeffs (n : nat) (k : Z) (parity : Z) (term : float)
  : list float :=
  match n with
  | O => []
  | S n' =>
      let a := float_of_Z (2 * k + parity + 1) in
      let b := float_of_Z (2 * k + parity + 2) in
      term :: series_coeffs n' (k + 1) parity
                (PrimFloat.opp (PrimFloat.div (PrimFloat.div term a) b))
  end.

(** A runnable stand-in for an engine's [Math.cos] and [Math.sin]: the
    Maclaurin polynomials of degree 38 and 39, within about 1e-15 of the
    true values on the arguments [circle] produces ([0] to [2*pi]), and
    exact at [0]. *)
Definition series_cos (x : float) : float :=
  horner (series_coeffs 20 0 0 PrimFloat.one) (PrimFloat.mul x x).

Definition series_sin (x : float) : float :=
  PrimFloat.mul x
    (horner (series_coeffs 20 0 1 PrimFloat.one) (PrimFloat.mul x x)).

#[export] Instance JsFloat : Number float := Float64 series_cos series_sin.

(** ** The ring generator *)

(** An element of the [coords] array: a [[lon, lat]] pair, or [undefined],
    which is what [coords[0]] reads from an empty array. *)
Inductive coord (num : Type) : Type :=
| Undefined : coord num
| Pt (lon lat : num) : coord num.
Arguments Undefined {num}.

Record Geometry (num : Type) : Type := {
  geometry_type : string;
  coordinates : list (list (coord num))
}.

(** The GeoJSON feature [circle] returns; [properties] is the empty object,
    kept as a list of key/value pairs. *)
Record Feature (num : Type) : Type := {
  feature_type : string;
  geometry : Geometry num;
  properties : list (string * string)
}.

Section Circle.
Context {num : Type} {N : Number num}.
Local Open Scope num_scope.

(** [const R = 6378137] *)
Definition R_earth : num := lit 6378137.

(** The body of the [for] loop at counter [i]: the pair it pushes. *)
Definition vertex (lon lat radiusMeters : num) (steps i : Z) : coord num :=
  let theta := (lit i / lit steps) * lit 2 * Math_PI in
  let dx := radiusMeters * Math_cos theta in
  let dy := radiusMeters * Math_sin theta in
  let dLon := dx / (R_earth * Math_cos (lat * Math_PI / lit 180))
              * lit 180 / Math_PI in
  let dLat := dy / R_earth * lit 180 / Math_PI in
  Pt (lon + dLon) (lat + dLat).

(** [for (let i = ...; i < steps; i++) coords.push(...)], with [todo] the
    number of counters from [i] on that are below [steps]. *)
Fixpoint circle_loop (lon lat radiusMeters : num) (steps : Z)
         (todo : nat) (i : Z) (coords : list (coord num)) : list (coord num) :=
  match todo with
  | O => coords
  | S todo' =>
      circle_loop lon lat radiusMeters steps todo' (i + 1)%Z
                  (coords ++ [vertex lon lat radiusMeters steps i])
  end.

(** The ring: the loop from [i = 0], then [coords.push(coords[0])]. *)
Definition circle_coords (center : num * num) (radiusMeters : num) (steps : Z)
  : list (coord num) :=
  let '(lon, lat) := center in
  let coords :=
    circle_loop lon lat radiusMeters steps (Z.to_nat steps) 0%Z [] in
  coords ++ [nth 0 coords Undefined].

Definition circle (center : num * num) (radiusMeters : num) (steps : Z)
  : Feature num :=
  {| feature_type := "Feature";
     geometry := {| geometry_type := "Polygon";
                    coordinates := [circle_coords center radiusMeters steps] |};
     properties := [] |}.

(** The default of the [steps] parameter. *)
Definition default_steps : Z := 128.

(** The outer ring of a polygon feature. *)
Definition ring_of (f : Feature num) : list (coord num) :=
  hd [] (coordinates (geometry f)).

(** Modelled from the spec: the source has no distance function; this is
    the flat-earth metric of the generator read backwards, the length in
    metres of the offset from [center] to the point [(vlon, vlat)], with a
    degree of longitude worth [R*cos(lat)*pi/180] metres and a degree of
    latitude worth [R*pi/180] metres. *)
Definition flat_dist (center : num * num) (vlon vlat : num) : num :=
  let '(lon, lat) := center in
  let dx := (vlon - lon) * Math_PI / lit 180
            * (R_earth * Math_cos (lat * Math_PI / lit 180)) in
  let dy := (vlat - lat) * Math_PI / lit 180 * R_earth in
  Math_sqrt (dx * dx + dy * dy).

End Circle.

(** The completion of a call: it returns a value or throws. *)
Inductive Completion (A : Type) : Type :=
| Returns (v : A) : Completion A
| Throws (err : string) : Completion A.
Arguments Throws {A}.

(** A call of [circle].  The body has no [throw] and no check of its
    arguments, and arithmetic on numbers never throws, so every call
    returns. *)
Definition circle_call {num : Type} {N : Number num}
           (center : num * num) (radiusMeters : num) (steps : Z)
  : Completion (Feature num) :=
  Returns (circle center radiusMeters steps).

(** What a caller could observe as a warning: a thrown error, or anything
    recorded in the feature's [properties]. *)
Definition flagged {num : Type} (c : Completion (Feature num)) : bool :=
  match c with
  | Throws _ => true
  | Returns f => match properties f with [] => false | _ :: _ => true end
  end.

(** Modelled from the spec: "within a small relative tolerance of distance
    r", as the binary64 test [|d - r| <= tol * r]. *)
Definition within_tolerance (tol r d : float) : bool :=
  PrimFloat.leb (PrimFloat.abs (PrimFloat.sub d r)) (PrimFloat.mul tol r).

(** The binary64 value of the literal [1e-12]. *)
Definition tiny_radius : float := 0x1.19799812dea11p-40%float.

(** ** The values of binary64 numbers *)

(** The real number [2^e]. *)
Definition bpow (e : Z) : R := powerRZ 2 e.

(** The real number a binary64 datum denotes; 0 for what is not finite. *)
Definition SF2R (x : spec_float) : R :=
  match x with
  | S754_finite s m e =>
      if s then (- (IZR (Zpos m) * bpow e))%R else (IZR (Zpos m) * bpow e)%R
  | _ => 0%R
  end.

Definition SFfinite (x : spec_float) : bool :=
  match x with
  | S754_finite _ _ _ | S754_zero _ => true
  | _ => false
  end.

Definition F2R (f : float) : R := SF2R (Prim2SF f).

Definition finite (f : float) : Prop := SFfinite (Prim2SF f) = true.

(** One unit in the last place of a number between 1 and 2, which bounds
    the relative error of a rounding, and the smallest positive binary64
    number, which bounds its absolute error near zero. *)
Definition u64 : R := bpow (-52).
Definition eta64 : R := bpow (-1074).

(** The value of a mantissa and an exponent. *)
Definition mag (m : positive) (e : Z) : R := (IZR (Zpos m) * bpow e)%R.

(** Reads off the value of a closed binary64 term. *)
Ltac float_value f :=
  unfold F2R, finite;
  let v := eval vm_compute in (Prim2SF f) in
  change (Prim2SF f) with v;
  cbn [SF2R SFfinite]; unfold bpow; simpl powerRZ.

(** ** The ring's radius in binary64 *)

(** Two pieces of the binary64 code, named: in [vertex], an offset [xf] in
    metres turned into degrees over the scale [Af] (the line of [dLon] and
    of [dLat]); in [flat_dist], a coordinate [vf] turned back into metres
    from the centre's coordinate [bf]. *)
Definition degrees_of (xf Af : float) : float :=
  (xf / Af * float_of_Z 180 / float_PI)%float.

Definition metres_back (vf bf Af : float) : float :=
  ((vf - bf) * float_PI / float_of_Z 180 * Af)%float.

(** [theta] of the loop at counter [i], and the argument of the cosine of
    the latitude, as binary64 computes them. *)
Definition vertex_angle (steps i : Z) : float :=
  (float_of_Z i / float_of_Z steps * float_of_Z 2 * float_PI)%float.

Definition latitude_radians (lat : float) : float :=
  (lat * float_PI / float_of_Z 180)%float.

(** The inputs for which the radius is proved: a radius from 1 m to 1e9 m,
    a centre with [|lon| <= 360] and [|lat| <= 90]. *)
Definition radius_in_range (r : float) : bool :=
  PrimFloat.leb 1 r && PrimFloat.leb r (float_of_Z 1000000000).

Definition center_in_range (lon lat : float) : bool :=
  PrimFloat.leb (PrimFloat.abs lon) (float_of_Z 360)
  && PrimFloat.leb (PrimFloat.abs lat) (float_of_Z 90).

(** The same with the radius from 0 on, for the bounding box of the ring. *)
Definition radius_bounded (r : float) : bool :=
  PrimFloat.leb 0 r && PrimFloat.leb r (float_of_Z 1000000000).

(** What is asked of the engine's [Math.cos] and [Math.sin], on the values
    they return to the call at hand: the cosine [g] of the latitude lies in
    [[2^-54, 1]]; the cosine [c] and sine [s] of a vertex's angle lie in
    [[-1, 1]] and satisfy [c*c + s*s = 1] within [2^-30], as computed in
    binary64. *)
Definition cosine_in_range (g : float) : bool :=
  PrimFloat.leb 0x1p-54 g && PrimFloat.leb g 1.

Definition unit_pair (c s : float) : bool :=
  PrimFloat.leb (PrimFloat.abs c) 1
  && PrimFloat.leb (PrimFloat.abs s) 1
  && PrimFloat.leb (PrimFloat.abs (c * c + s * s - 1)) 0x1p-30.

(** ** Application data *)

Module SimulationResult.

Record LatLon (num : Type) : Type := { lat : num; lon : num }.

(** [overpressure_radii_m]: the object with the two keys ['1psi'] and
    ['5psi'], one field per key. *)
Record Radii (num : Type) : Type := { psi1 : num; psi5 : num }.

Record t (num : Type) : Type := {
  regime : string;
  e_kt : num;
  center : LatLon num;
  overpressure_radii_m : Radii num
}.

End SimulationResult.
Abbreviation SimulationResult := SimulationResult.t.

Record PhaResult (num : Type) : Type := {
  des : string;
  name : option string;
  spkid : string;
  diameter : option num;
  albedo : option num;
  pha : string
}.

Inductive Status : Type := idle | loading | error.

Definition Status_eqb (a b : Status) : bool :=
  match a, b with
  | idle, idle | loading, loading | error, error => true
  | _, _ => false
  end.

Record Params (num : Type) : Type := {
  diameter_m : num;
  density_kg_m3 : num;
  velocity_kms : num;
  angle_deg : num;
  composition : string
}.

Record ViewState (num : Type) : Type := {
  longitude : num;
  latitude : num;
  zoom : num;
  bearing : num;
  pitch : num
}.

(** The nine [useState] cells of [App]. *)
Record AppState (num : Type) : Type := {
  center : num * num;
  sim : option (SimulationResult num);
  simStatus : Status;
  simError : option string;
  phaStatus : Status;
  phaError : option string;
  phaResults : list (PhaResult num);
  params : Params num;
  viewState : ViewState num
}.

(** ** The overlay *)

Record FeatureCollection (num : Type) : Type := {
  collection_type : string;
  features : list (Feature num)
}.

(** The properties handed to [new GeoJsonLayer]. *)
Record GeoJsonLayer (num : Type) : Type := {
  id : string;
  data : FeatureCollection num;
  filled : bool;
  stroked : bool;
  getLineColor : list Z;
  getFillColor : list Z
}.

Section Layers.
Context {num : Type} {N : Number num}.

(** The function memoised by [useMemo(..., [sim])]: it reads [sim] only. *)
Definition layers (sim : option (SimulationResult num))
  : list (GeoJsonLayer num) :=
  match sim with
  | None => []
  | Some sim =>
      let ctr := (SimulationResult.lon (SimulationResult.center sim),
                  SimulationResult.lat (SimulationResult.center sim)) in
      let f1 := circle ctr
                  (SimulationResult.psi1 (SimulationResult.overpressure_radii_m sim))
                  default_steps in
      let f5 := circle ctr
                  (SimulationResult.psi5 (SimulationResult.overpressure_radii_m sim))
                  default_steps in
      let fc1 := {| collection_type := "FeatureCollection"; features := [f1] |} in
      let fc5 := {| collection_type := "FeatureCollection"; features := [f5] |} in
      [ {| id := "op-1psi"; data := fc1; filled := true; stroked := true;
           getLineColor := [248; 113; 113; 200]%Z;
           getFillColor := [248; 113; 113; 80]%Z |};
        {| id := "op-5psi"; data := fc5; filled := true; stroked := true;
           getLineColor := [251; 146; 60; 200]%Z;
           getFillColor := [251; 146; 60; 80]%Z |} ]
  end.

(** The [layers] value of a render of [App]. *)
Definition app_layers (st : AppState num) : list (GeoJsonLayer num) :=
  layers (sim st).

(** The ring coordinates a layer draws, feature by feature. *)
Definition layer_rings (l : GeoJsonLayer num) : list (list (list (coord num))) :=
  map (fun f => coordinates (geometry f)) (features (data l)).

End Layers.

(** ** React state setters *)

Section Setters.
Context {num : Type}.

Definition setCenter (c : num * num) (st : AppState num) : AppState num :=
  {| center := c; sim := sim st; simStatus := simStatus st;
     simError := simError st; phaStatus := phaStatus st;
     phaError := phaError st; phaResults := phaResults st;
     params := params st; viewState := viewState st |}.

Definition setSim (v : option (SimulationResult num)) (st : AppState num)
  : AppState num :=
  {| center := center st; sim := v; simStatus := simStatus st;
     simError := simError st; phaStatus := phaStatus st;
     phaError := phaError st; phaResults := phaResults st;
     params := params st; viewState := viewState st |}.

Definition setSimStatus (v : Status) (st : AppState num) : AppState num :=
  {| center := center st; sim := sim st; simStatus := v;
     simError := simError st; phaStatus := phaStatus st;
     phaError := phaError st; phaResults := phaResults st;
     params := params st; viewState := viewState st |}.

Definition setSimError (v : option string) (st : AppState num) : AppState num :=
  {| center := center st; sim := sim st; simStatus := simStatus st;
     simError := v; phaStatus := phaStatus st;
     phaError := phaError st; phaResults := phaResults st;
     params := params st; viewState := viewState st |}.

Definition setPhaStatus (v : Status) (st : AppState num) : AppState num :=
  {| center := center st; sim := sim st; simStatus := simStatus st;
     simError := simError st; phaStatus := v;
     phaError := phaError st; phaResults := phaResults st;
     params := params st; viewState := viewState st |}.

Definition setPhaError (v : option string) (st : AppState num) : AppState num :=
  {| center := center st; sim := sim st; simStatus := simStatus st;
     simError := simError st; phaStatus := phaStatus st;
     phaError := v; phaResults := phaResults st;
     params := params st; viewState := viewState st |}.

Definition setPhaResults (v : list (PhaResult num)) (st : AppState num)
  : AppState num :=
  {| center := center st; sim := sim st; simStatus := simStatus st;
     simError := simError st; phaStatus := phaStatus st;
     phaError := phaError st; phaResults := v;
     params := params st; viewState := viewState st |}.

(** [setParams((p) => ...)]: the updater form. *)
Definition setParams (f : Params num -> Params num) (st : AppState num)
  : AppState num :=
  {| center := center st; sim := sim st; simStatus := simStatus st;
     simError := simError st; phaStatus := phaStatus st;
     phaError := phaError st; phaResults := phaResults st;
     params := f (params st); viewState := viewState st |}.

Definition setViewState (v : ViewState num) (st : AppState num) : AppState num :=
  {| center := center st; sim := sim st; simStatus := simStatus st;
     simError := simError st; phaStatus := phaStatus st;
     phaError := phaError st; phaResults := phaResults st;
     params := params st; viewState := v |}.

End Setters.

(** ** The two request pipelines *)

(** What a rejected promise carries: an [Error] object with its [message],
    or any other thrown value. *)
Inductive Thrown : Type :=
| ErrorObject (message : string)
| OtherValue.

(** How an awaited call settles. *)
Inductive Outcome (A : Type) : Type :=
| Fulfilled (v : A) : Outcome A
| Rejected (e : Thrown) : Outcome A.
Arguments Rejected {A}.

(** The argument of [simulate]:
    [{...params, lat: center[1], lon: center[0]}]. *)
Record SimRequest (num : Type) : Type := {
  request_params : Params num;
  request_lat : num;
  request_lon : num
}.

(** The arguments of [neoSearch]. *)
Record PhaRequest : Type := { phaOnly : bool; limit : Z }.

Section Pipelines.
Context {num : Type}.

(** [runSim] up to its [await]: the two setters, then the call of
    [simulate], whose argument is returned with the new state. *)
Definition runSim_begin (st : AppState num) : AppState num * SimRequest num :=
  let st1 := setSimStatus loading st in
  let st2 := setSimError None st1 in
  (st2, {| request_params := params st;
           request_lat := snd (center st);
           request_lon := fst (center st) |}).

(** [error instanceof Error ? error.message : 'Simulation failed.'] *)
Definition sim_message (e : Thrown) : string :=
  match e with
  | ErrorObject m => m
  | OtherValue => "Simulation failed."
  end.

(** [runSim] after its [await]: the rest of the [try] block when the call
    fulfils, the [catch] block when it rejects. *)
Definition runSim_resume (o : Outcome (SimulationResult num))
           (st : AppState num) : AppState num :=
  match o with
  | Fulfilled data => setSimStatus idle (setSim (Some data) st)
  | Rejected e => setSimError (Some (sim_message e)) (setSimStatus error st)
  end.

(** The click handler of the refresh button, up to its [await]. *)
Definition refresh_begin (st : AppState num) : AppState num * PhaRequest :=
  let st1 := setPhaStatus loading st in
  let st2 := setPhaError None st1 in
  (st2, {| phaOnly := true; limit := 6 |}).

(** [error instanceof Error ? error.message : 'Search failed.'] *)
Definition pha_message (e : Thrown) : string :=
  match e with
  | ErrorObject m => m
  | OtherValue => "Search failed."
  end.

(** The same handler after its [await]. *)
Definition refresh_resume (o : Outcome (list (PhaResult num)))
           (st : AppState num) : AppState num :=
  match o with
  | Fulfilled rows => setPhaStatus idle (setPhaResults rows st)
  | Rejected e => setPhaError (Some (pha_message e)) (setPhaStatus error st)
  end.

(** [{simStatus === 'error' && <p className="error">{simError}</p>}]: the
    error text on screen, if any. *)
Definition shown_sim_error (st : AppState num) : option string :=
  match simStatus st with
  | error => simError st
  | _ => None
  end.

(** [{phaStatus === 'error' && <p className="error">{phaError}</p>}] *)
Definition shown_pha_error (st : AppState num) : option string :=
  match phaStatus st with
  | error => phaError st
  | _ => None
  end.

(** [disabled={simStatus === 'loading'}] *)
Definition run_button_disabled (st : AppState num) : bool :=
  Status_eqb (simStatus st) loading.

(** [disabled={phaStatus === 'loading'}] *)
Definition refresh_button_disabled (st : AppState num) : bool :=
  Status_eqb (phaStatus st) loading.

(** What the two pipelines store besides their status and message. *)
Definition stored_data (st : AppState num)
  : option (SimulationResult num) * list (PhaResult num) :=
  (sim st, phaResults st).

(** *** The event loop *)

(** The application together with the calls that await their response,
    oldest first. *)
Record World : Type := {
  app : AppState num;
  simPending : list (SimRequest num);
  phaPending : list PhaRequest
}.

(** What the event loop can run next.  [InvokeRunSim] and [InvokeRefresh]
    call the handlers whatever the buttons show; the two [Click] events go
    through the buttons, which do nothing while disabled.  A settle event
    names the awaiting call by its position in the pending list. *)
Inductive Event : Type :=
| MapClick (lng lat : num)
| MapMove (v : ViewState num)
| ParamsChange (f : Params num -> Params num)
| InvokeRunSim
| ClickRunSim
| SimSettled (k : nat) (o : Outcome (SimulationResult num))
| InvokeRefresh
| ClickRefresh
| PhaSettled (k : nat) (o : Outcome (list (PhaResult num))).

Fixpoint remove_nth {A : Type} (k : nat) (l : list A) : list A :=
  match l, k with
  | [], _ => []
  | _ :: rest, O => rest
  | x :: rest, S k' => x :: remove_nth k' rest
  end.

Definition with_app (w : World) (st : AppState num) : World :=
  {| app := st; simPending := simPending w; phaPending := phaPending w |}.

Definition invoke_runSim (w : World) : World :=
  let '(st, request) := runSim_begin (app w) in
  {| app := st; simPending := simPending w ++ [request];
     phaPending := phaPending w |}.

Definition invoke_refresh (w : World) : World :=
  let '(st, request) := refresh_begin (app w) in
  {| app := st; simPending := simPending w;
     phaPending := phaPending w ++ [request] |}.

(** One turn of the event loop; [None] when the event cannot happen (a
    click on a disabled button, a response nobody awaits). *)
Definition step (w : World) (e : Event) : option World :=
  match e with
  | MapClick lng lat => Some (with_app w (setCenter (lng, lat) (app w)))
  | MapMove v => Some (with_app w (setViewState v (app w)))
  | ParamsChange f => Some (with_app w (setParams f (app w)))
  | InvokeRunSim => Some (invoke_runSim w)
  | ClickRunSim =>
      if run_button_disabled (app w) then None else Some (invoke_runSim w)
  | SimSettled k o =>
      match nth_error (simPending w) k with
      | None => None
      | Some _ =>
          Some {| app := runSim_resume o (app w);
                  simPending := remove_nth k (simPending w);
                  phaPending := phaPending w |}
      end
  | InvokeRefresh => Some (invoke_refresh w)
  | ClickRefresh =>
      if refresh_button_disabled (app w) then None else Some (invoke_refresh w)
  | PhaSettled k o =>
      match nth_error (phaPending w) k with
      | None => None
      | Some _ =>
          Some {| app := refresh_resume o (app w);
                  simPending := simPending w;
                  phaPending := remove_nth k (phaPending w) |}
      end
  end.

Fixpoint run (w : World) (events : list Event) : option World :=
  match events with
  | [] => Some w
  | e :: rest =>
      match step w e with
      | None => None
      | Some w' => run w' rest
      end
  end.

(** The events a user and the network can cause: everything but a direct
    call of a handler. *)
Definition ui_event (e : Event) : bool :=
  match e with
  | InvokeRunSim | InvokeRefresh => false
  | _ => true
  end.

(** A response of the simulation pipeline. *)
Definition is_sim_settle (e : Event) : bool :=
  match e with
  | SimSettled _ _ => true
  | _ => false
  end.

(** What may happen between a click on the run button and the response to
    it: any user or network event that is not a simulation response. *)
Definition between_click_and_response (e : Event) : Prop :=
  ui_event e = true /\ is_sim_settle e = false.

(** Through the buttons, a pipeline is [loading] exactly while one call of
    it awaits its response, and no second call is ever pending. *)
Definition pipeline_consistent {A : Type} (status : Status) (pending : list A)
  : Prop :=
  (status = loading /\ length pending = 1%nat) \/
  (status <> loading /\ pending = []).

Definition consistent (w : World) : Prop :=
  pipeline_consistent (simStatus (app w)) (simPending w) /\
  pipeline_consistent (phaStatus (app w)) (phaPending w).

End Pipelines.
Arguments World num : clear implicits.
Arguments Event num : clear implicits.

Section Initial.
Context {num : Type} {N : Number num}.
Local Open Scope num_scope.

(** The initial entry point, [[77.5946, 12.9716]]; a decimal literal is the
    quotient of two integers, rounded once. *)
Definition initial_center : num * num :=
  (lit 775946 / lit 10000, lit 129716 / lit 10000).

(** The initial values of the [useState] cells. *)
Definition initial_state : AppState num :=
  {| center := initial_center;
     sim := None;
     simStatus := idle;
     simError := None;
     phaStatus := idle;
     phaError := None;
     phaResults := [];
     params := {| diameter_m := lit 140; density_kg_m3 := lit 3000;
                  velocity_kms := lit 19; angle_deg := lit 30;
                  composition := "stony" |};
     viewState := {| longitude := fst initial_center;
                     latitude := snd initial_center;
                     zoom := lit 8; bearing := lit 0; pitch := lit 0 |} |}.

Definition initial_world : World num :=
  {| app := initial_state; simPending := []; phaPending := [] |}.

(** The worlds the user and the network can bring about. *)
Inductive ui_reachable : World num -> Prop :=
| reach_initial : ui_reachable initial_world
| reach_step (w w' : World num) (e : Event num) :
    ui_reachable w -> ui_event e = true -> step w e = Some w' ->
    ui_reachable w'.

End Initial.

(** ** Example data, in binary64 *)

(** A response for the initial entry point [(77.5946, 12.9716)], with the
    radii 2000 m and 800 m. *)
Definition example_result : SimulationResult float :=
  {| SimulationResult.regime := "airburst";
     SimulationResult.e_kt := 12%float;
     SimulationResult.center :=
       {| SimulationResult.lat := snd (initial_center (N := JsFloat));
          SimulationResult.lon := fst (initial_center (N := JsFloat)) |};
     SimulationResult.overpressure_radii_m :=
       {| SimulationResult.psi1 := 2000%float;
          SimulationResult.psi5 := 800%float |} |}.

(** A response for an entry point at [(10, 20)]. *)
Definition other_result : SimulationResult float :=
  {| SimulationResult.regime := "airburst";
     SimulationResult.e_kt := 12%float;
     SimulationResult.center :=
       {| SimulationResult.lat := 20%float; SimulationResult.lon := 10%float |};
     SimulationResult.overpressure_radii_m :=
       {| SimulationResult.psi1 := 2000%float;
          SimulationResult.psi5 := 800%float |} |}.

(** A camera pose away from the initial one. *)
Definition example_view : ViewState float :=
  {| longitude := 10%float; latitude := 20%float; zoom := 3%float;
     bearing := 45%float; pitch := 30%float |}.

(** Two states with the same result and different cameras. *)
Definition example_state : AppState float :=
  setSim (Some example_result) (initial_state (N := JsFloat)).

Definition example_state_moved : AppState float :=
  setViewState example_view example_state.

(** A world showing the example result, idle. *)
Definition example_world : World float :=
  {| app := example_state; simPending := []; phaPending := [] |}.

(** The same world one click on the run button later. *)
Definition example_world_loading : World float :=
  invoke_runSim example_world.

(** The initial world after a failed run: its error text is on screen. *)
Definition example_world_failed : World float :=
  {| app := runSim_resume (Rejected (ErrorObject "HTTP 500"))
                          (fst (runSim_begin (initial_state (N := JsFloat))));
     simPending := []; phaPending := [] |}.

(** ** The form and the panels *)

Section Form.
Context {num : Type}.

(** The updaters the five form controls hand to [setParams]:
    [(p) => ({...p, <field>: <value>})]. *)
Definition with_diameter_m (v : num) (p : Params num) : Params num :=
  {| diameter_m := v; density_kg_m3 := density_kg_m3 p;
     velocity_kms := velocity_kms p; angle_deg := angle_deg p;
     composition := composition p |}.

Definition with_velocity_kms (v : num) (p : Params num) : Params num :=
  {| diameter_m := diameter_m p; density_kg_m3 := density_kg_m3 p;
     velocity_kms := v; angle_deg := angle_deg p;
     composition := composition p |}.

Definition with_angle_deg (v : num) (p : Params num) : Params num :=
  {| diameter_m := diameter_m p; density_kg_m3 := density_kg_m3 p;
     velocity_kms := velocity_kms p; angle_deg := v;
     composition := composition p |}.

Definition with_density_kg_m3 (v : num) (p : Params num) : Params num :=
  {| diameter_m := diameter_m p; density_kg_m3 := v;
     velocity_kms := velocity_kms p; angle_deg := angle_deg p;
     composition := composition p |}.

Definition with_composition (v : string) (p : Params num) : Params num :=
  {| diameter_m := diameter_m p; density_kg_m3 := density_kg_m3 p;
     velocity_kms := velocity_kms p; angle_deg := angle_deg p;
     composition := v |}.

(** [<span className="badge">{sim ? 'Updated' : 'Awaiting run'}</span>] *)
Definition badge (st : AppState num) : string :=
  match sim st with
  | Some _ => "Updated"
  | None => "Awaiting run"
  end.

(** [{row.name || 'Uncatalogued short name'}]: a missing name and the empty
    string are both falsy. *)
Definition shown_name (row : PhaResult num) : string :=
  match name row with
  | Some s => if String.eqb s "" then "Uncatalogued short name" else s
  | None => "Uncatalogued short name"
  end.

(** The candidates card below its header: the list, one item per row in the
    order of [phaResults] (here the designation, the name shown and the PHA
    flag of each), or the hint when [phaResults.length > 0] is false. *)
Inductive PhaPanel : Type :=
| PhaList (items : list (string * string * string))
| PhaHint (text : string).

Definition pha_panel (st : AppState num) : PhaPanel :=
  match phaResults st with
  | [] => PhaHint "Load the latest PHA candidates from JPL SBDB."
  | _ :: _ =>
      PhaList (map (fun row => (des row, shown_name row, pha row))
                   (phaResults st))
  end.

(** *** Kinds of events *)

Definition is_map_click (e : Event num) : bool :=
  match e with MapClick _ _ => true | _ => false end.

Definition is_map_move (e : Event num) : bool :=
  match e with MapMove _ => true | _ => false end.

Definition is_params_change (e : Event num) : bool :=
  match e with ParamsChange _ => true | _ => false end.

(** A simulation response that is a success. *)
Definition is_sim_success (e : Event num) : bool :=
  match e with SimSettled _ (Fulfilled _) => true | _ => false end.

(** A candidate-search response that is a success. *)
Definition is_pha_success (e : Event num) : bool :=
  match e with PhaSettled _ (Fulfilled _) => true | _ => false end.

(** A response of the candidate-search pipeline. *)
Definition is_pha_settle (e : Event num) : bool :=
  match e with PhaSettled _ _ => true | _ => false end.

(** The events of the simulation pipeline, and those of the candidate
    search. *)
Definition sim_pipeline_event (e : Event num) : bool :=
  match e with
  | InvokeRunSim | ClickRunSim | SimSettled _ _ => true
  | _ => false
  end.

Definition pha_pipeline_event (e : Event num) : bool :=
  match e with
  | InvokeRefresh | ClickRefresh | PhaSettled _ _ => true
  | _ => false
  end.

(** What may happen between a click on the refresh button and the response
    to it. *)
Definition between_refresh_and_response (e : Event num) : Prop :=
  ui_event e = true /\ is_pha_settle e = false.

(** A pipeline's message is set exactly when its status is [error]. *)
Definition message_matches (status : Status) (message : option string) : Prop :=
  (status = error /\ message <> None) \/ (status <> error /\ message = None).

End Form.

(** Two catalogue rows, one with a name and one without. *)
Definition example_row_named : PhaResult float :=
  {| des := "99942"; name := Some "Apophis"%string; spkid := "20099942";
     diameter := Some 0x1.5c28f5c28f5c3p-2%float; albedo := None; pha := "Y" |}.

Definition example_row_unnamed : PhaResult float :=
  {| des := "2000 SG344"; name := None; spkid := "54000001";
     diameter := None; albedo := None; pha := "Y" |}.

(** The example state after a search that returned those two rows. *)
Definition example_state_searched : AppState float :=
  refresh_resume (Fulfilled [example_row_named; example_row_unnamed])
                 (fst (refresh_begin example_state)).

(** * Part II: properties *)

(** ** The ring generator, in any arithmetic *)

Section CircleFacts.
Context {num : Type} {N : Number num}.
Variables (lon lat radiusMeters : num) (steps : Z).

(** The loop appends the vertices of the counters [i], [i+1], ... *)
Lemma circle_loop_spec (todo : nat) :
  forall (i : Z) (coords : list (coord num)),
    circle_loop lon lat radiusMeters steps todo i coords =
    coords ++ map (fun k => vertex lon lat radiusMeters steps (i + Z.of_nat k))
                  (seq 0 todo).
Proof.
  induction todo as [|todo IH]; intros i coords; simpl.
  - now rewrite app_nil_r.
  - rewrite IH, <- app_assoc. simpl. f_equal.
    rewrite Z.add_0_r. f_equal.
    rewrite <- seq_shift, map_map.
    apply map_ext. intros k. f_equal. lia.
Qed.

Lemma circle_coords_unfold :
  circle_coords (lon, lat) radiusMeters steps =
  let coords := map (fun k => vertex lon lat radiusMeters steps (Z.of_nat k))
                    (seq 0 (Z.to_nat steps)) in
  coords ++ [nth 0 coords Undefined].
Proof.
  unfold circle_coords. rewrite circle_loop_spec. reflexivity.
Qed.

Lemma circle_coords_length :
  length (circle_coords (lon, lat) radiusMeters steps)
  = (Z.to_nat steps + 1)%nat.
Proof.
  rewrite circle_coords_unfold. cbv zeta.
  now rewrite length_app, length_map, length_seq.
Qed.

Lemma circle_coords_closed :
  nth 0 (circle_coords (lon, lat) radiusMeters steps) Undefined =
  last (circle_coords (lon, lat) radiusMeters steps) Undefined.
Proof.
  rewrite circle_coords_unfold. cbv zeta.
  rewrite last_last.
  destruct (Z.to_nat steps) as [|n]; reflexivity.
Qed.

Lemma circle_coords_nth (i : nat) :
  (i < Z.to_nat steps)%nat ->
  nth_error (circle_coords (lon, lat) radiusMeters steps) i =
  Some (vertex lon lat radiusMeters steps (Z.of_nat i)).
Proof.
  intros Hi. rewrite circle_coords_unfold. cbv zeta.
  rewrite nth_error_app1 by now rewrite length_map, length_seq.
  rewrite nth_error_map, nth_error_seq.
  destruct (Nat.ltb_spec i (Z.to_nat steps)); [reflexivity | lia].
Qed.

(** With no counter below [steps], the ring is the one entry [undefined]. *)
Lemma circle_coords_degenerate :
  (steps <= 0)%Z -> circle_coords (lon, lat) radiusMeters steps = [Undefined].
Proof.
  intros Hs. rewrite circle_coords_unfold.
  replace (Z.to_nat steps) with 0%nat by lia. reflexivity.
Qed.

End CircleFacts.

(** ** Binary64 arithmetic: the error of one operation *)

(** Each binary64 operation returns its exact result rounded to nearest:
    when the exact result [z] is below the overflow threshold, the computed
    one is finite and within [u64 * |z| + eta64] of [z].  This is derived
    below from the specification of the primitive floats ([SpecFloat]). *)

Unset Implicit Arguments.

Section Binary64.

Lemma bpow_pos (e : Z) : (0 < bpow e)%R.
Proof. apply powerRZ_lt. lra. Qed.

Lemma bpow_add (a b : Z) : bpow (a + b) = (bpow a * bpow b)%R.
Proof. apply powerRZ_add. lra. Qed.

Lemma bpow_IZR (k : Z) : (0 <= k)%Z -> bpow k = IZR (2 ^ k).
Proof.
  intros Hk. unfold bpow.
  rewrite <- (Z2Nat.id k) by assumption.
  rewrite <- pow_powerRZ, pow_IZR. reflexivity.
Qed.

Lemma bpow_ge_1 (k : Z) : (0 <= k)%Z -> (1 <= bpow k)%R.
Proof.
  intros Hk. rewrite bpow_IZR by assumption.
  apply IZR_le. assert (0 < 2 ^ k)%Z by (apply Z.pow_pos_nonneg; lia). lia.
Qed.

Lemma bpow_le (a b : Z) : (a <= b)%Z -> (bpow a <= bpow b)%R.
Proof.
  intros Hab. replace b with (a + (b - a))%Z by lia.
  rewrite bpow_add.
  pose proof (bpow_pos a). pose proof (bpow_ge_1 (b - a) ltac:(lia)). nra.
Qed.

Lemma bpow_lt (a b : Z) : (a < b)%Z -> (bpow a < bpow b)%R.
Proof.
  intros Hab. replace b with (a + 1 + (b - a - 1))%Z by lia.
  rewrite !bpow_add.
  pose proof (bpow_pos a). pose proof (bpow_ge_1 (b - a - 1) ltac:(lia)).
  replace (bpow 1) with 2%R by (unfold bpow; simpl; lra). nra.
Qed.

Lemma bpow_0 : bpow 0 = 1%R.
Proof. reflexivity. Qed.

Lemma bpow_1 : bpow 1 = 2%R.
Proof. unfold bpow. simpl. lra. Qed.

(** *** Digits *)

Lemma digits2_pos_bounds (p : positive) :
  (2 ^ (Zpos (digits2_pos p) - 1) <= Zpos p < 2 ^ Zpos (digits2_pos p))%Z.
Proof.
  induction p as [p IH | p IH |]; cbn [digits2_pos].
  - rewrite Pos2Z.inj_succ.
    replace (Z.succ (Zpos (digits2_pos p)) - 1)%Z with (Zpos (digits2_pos p) - 1 + 1)%Z by lia.
    rewrite Z.pow_succ_r by lia.
    rewrite Z.pow_add_r by lia. lia.
  - rewrite Pos2Z.inj_succ.
    replace (Z.succ (Zpos (digits2_pos p)) - 1)%Z with (Zpos (digits2_pos p) - 1 + 1)%Z by lia.
    rewrite Z.pow_succ_r by lia.
    rewrite Z.pow_add_r by lia. lia.
  - simpl. lia.
Qed.

Lemma Zdigits2_bounds (m : Z) :
  (0 < m)%Z -> (2 ^ (Zdigits2 m - 1) <= m < 2 ^ Zdigits2 m)%Z.
Proof.
  destruct m as [|p|p]; try lia. intros _. apply digits2_pos_bounds.
Qed.

Lemma Zdigits2_nonneg (m : Z) : (0 <= Zdigits2 m)%Z.
Proof. destruct m; simpl; lia. Qed.

Lemma Zdigits2_le (m k : Z) : (0 <= m < 2 ^ k)%Z -> (0 <= k)%Z -> (Zdigits2 m <= k)%Z.
Proof.
  intros [Hm Hlt] Hk. destruct (Z.eq_dec m 0) as [-> | Hne]; [simpl; lia|].
  pose proof (Zdigits2_bounds m ltac:(lia)) as [Hlo _].
  destruct (Z.le_gt_cases (Zdigits2 m) k) as [H | H]; [assumption|].
  exfalso. assert (2 ^ k <= 2 ^ (Zdigits2 m - 1))%Z by (apply Z.pow_le_mono_r; lia). lia.
Qed.

Lemma Zdigits2_ge (m k : Z) : (2 ^ k <= m)%Z -> (0 <= k)%Z -> (k + 1 <= Zdigits2 m)%Z.
Proof.
  intros Hle Hk.
  assert (0 < m)%Z by (assert (0 < 2 ^ k)%Z by (apply Z.pow_pos_nonneg; lia); lia).
  pose proof (Zdigits2_bounds m ltac:(lia)) as [_ Hhi].
  destruct (Z.le_gt_cases (k + 1) (Zdigits2 m)) as [Hc | Hc]; [assumption|].
  exfalso. assert (2 ^ Zdigits2 m <= 2 ^ k)%Z.
  { apply Z.pow_le_mono_r; [lia|]. lia. }
  lia.
Qed.

(** *** Shifting right *)

Lemma shr_1_m (mrs : shr_record) :
  (0 <= shr_m mrs)%Z -> shr_m (shr_1 mrs) = (shr_m mrs / 2)%Z.
Proof.
  destruct mrs as [m r s]. cbn [shr_m]. intros Hm.
  destruct m as [|[p|p|]|p]; cbn [shr_1 shr_m]; try lia; try reflexivity.
  - apply Z.div_unique with 1%Z; lia.
  - apply Z.div_unique with 0%Z; lia.
Qed.

Lemma iter_shr_1_m (p : positive) :
  forall mrs : shr_record,
    (0 <= shr_m mrs)%Z ->
    shr_m (SpecFloat.iter_pos shr_1 p mrs) = (shr_m mrs / 2 ^ Zpos p)%Z.
Proof.
  induction p as [p IH | p IH |]; intros mrs Hm; cbn [SpecFloat.iter_pos].
  - assert (H1 : (0 <= shr_m (shr_1 mrs))%Z)
      by (rewrite shr_1_m by assumption; apply Z.div_pos; lia).
    assert (H2 : (0 <= shr_m (SpecFloat.iter_pos shr_1 p (shr_1 mrs)))%Z)
      by (rewrite IH by assumption; apply Z.div_pos; [assumption | apply Z.pow_pos_nonneg; lia]).
    rewrite IH by assumption. rewrite IH by assumption. rewrite shr_1_m by assumption.
    rewrite !Z.div_div by (try apply Z.pow_pos_nonneg; lia).
    f_equal. rewrite <- !Z.pow_add_r by lia.
    rewrite <- (Z.pow_1_r 2) at 1. rewrite <- Z.pow_add_r by lia.
    f_equal. lia.
  - assert (H2 : (0 <= shr_m (SpecFloat.iter_pos shr_1 p mrs))%Z)
      by (rewrite IH by assumption; apply Z.div_pos; [assumption | apply Z.pow_pos_nonneg; lia]).
    rewrite IH by assumption. rewrite IH by assumption.
    rewrite !Z.div_div by (try apply Z.pow_pos_nonneg; lia).
    f_equal. rewrite <- !Z.pow_add_r by lia. f_equal. lia.
  - rewrite shr_1_m by assumption. reflexivity.
Qed.

(** Shifting by [n >= 0] places divides the mantissa and raises the exponent. *)
Lemma shr_spec (mrs : shr_record) (e n : Z) :
  (0 <= shr_m mrs)%Z -> (0 <= n)%Z ->
  shr_m (fst (shr mrs e n)) = (shr_m mrs / 2 ^ n)%Z /\
  snd (shr mrs e n) = (e + n)%Z.
Proof.
  intros Hm Hn. destruct n as [|p|p]; cbn [shr fst snd]; try lia.
  - rewrite Z.div_1_r. split; [reflexivity | lia].
  - split; [apply iter_shr_1_m; assumption | reflexivity].
Qed.

Lemma shr_record_of_loc_m (m : Z) (l : location) : shr_m (shr_record_of_loc m l) = m.
Proof. destruct l as [|[| |]]; reflexivity. Qed.

Lemma round_nearest_even_cases (m : Z) (l : location) :
  round_nearest_even m l = m \/ round_nearest_even m l = (m + 1)%Z.
Proof.
  destruct l as [|[| |]]; cbn [round_nearest_even]; auto.
  destruct (Z.even m); auto.
Qed.

Lemma emin_value : SpecFloat.emin prec emax = (-1074)%Z.
Proof. reflexivity. Qed.

Lemma fexp_spec (e : Z) : fexp prec emax e = Z.max (e - 53) (-1074).
Proof. reflexivity. Qed.

Lemma shr_nonpos (mrs : shr_record) (e n : Z) : (n <= 0)%Z -> shr mrs e n = (mrs, e).
Proof. destruct n; cbn [shr]; intros; (reflexivity || lia). Qed.

Lemma IZR_bpow_shift (m n e : Z) :
  (0 <= n)%Z -> (IZR (m * 2 ^ n) * bpow e = IZR m * bpow (e + n))%R.
Proof.
  intros Hn. rewrite mult_IZR, bpow_add, (bpow_IZR n) by assumption. ring.
Qed.

(** Rounding a positive real known up to one unit of its integer mantissa:
    the result is finite and within one unit in the last place. *)
Lemma binary_round_aux_spec (sx : bool) (mx ex : Z) (lx : location) (x : R) :
  (0 <= mx)%Z ->
  (ex <= fexp prec emax (Zdigits2 mx + ex))%Z ->
  (IZR mx * bpow ex <= x <= IZR (mx + 1) * bpow ex)%R ->
  (x < bpow 1023)%R ->
  exists v : R,
    SFfinite (binary_round_aux prec emax sx mx ex lx) = true /\
    SF2R (binary_round_aux prec emax sx mx ex lx) = (if sx then - v else v)%R /\
    (0 <= v)%R /\
    (Rabs (v - x) <= bpow (fexp prec emax (Zdigits2 mx + ex)))%R.
Proof.
  intros Hmx Hex [Hlo Hhi] Hov.
  set (d := Zdigits2 mx) in *.
  set (e1 := fexp prec emax (d + ex)) in *.
  set (n := (e1 - ex)%Z).
  assert (Hn : (0 <= n)%Z) by (unfold n; lia).
  assert (Hd : (0 <= d)%Z) by apply Zdigits2_nonneg.
  assert (He1 : e1 = Z.max (d + ex - 53) (-1074)) by apply fexp_spec.
  assert (Hpn : (0 < 2 ^ n)%Z) by (apply Z.pow_pos_nonneg; lia).
  set (m1 := (mx / 2 ^ n)%Z).
  assert (Hm1 : (0 <= m1)%Z) by (apply Z.div_pos; lia).
  assert (Hdiv : (m1 * 2 ^ n <= mx < (m1 + 1) * 2 ^ n)%Z).
  { unfold m1. pose proof (Z.mul_div_le mx (2 ^ n) Hpn).
    pose proof (Z.mul_succ_div_gt mx (2 ^ n) Hpn). lia. }
  assert (Hm1lt : (m1 < 2 ^ 53)%Z).
  { apply Z.div_lt_upper_bound; [assumption|].
    destruct (Z.eq_dec mx 0) as [-> | Hne].
    - apply Z.mul_pos_pos; [assumption | lia].
    - pose proof (Zdigits2_bounds mx ltac:(lia)) as [_ Hup]. fold d in Hup.
      rewrite <- Z.pow_add_r by lia.
      eapply Z.lt_le_trans; [exact Hup|].
      apply Z.pow_le_mono_r; lia. }
  (* bounds in the reals *)
  assert (Hx1 : (IZR m1 * bpow e1 <= x)%R).
  { replace e1 with (ex + n)%Z by (unfold n; lia).
    rewrite <- IZR_bpow_shift by assumption.
    eapply Rle_trans; [|exact Hlo].
    apply Rmult_le_compat_r; [apply Rlt_le, bpow_pos|]. apply IZR_le. lia. }
  assert (Hx2 : (x <= IZR (m1 + 1) * bpow e1)%R).
  { replace e1 with (ex + n)%Z by (unfold n; lia).
    rewrite <- IZR_bpow_shift by assumption.
    eapply Rle_trans; [exact Hhi|].
    apply Rmult_le_compat_r; [apply Rlt_le, bpow_pos|]. apply IZR_le. lia. }
  (* no overflow *)
  assert (He1max : (e1 <= 970)%Z).
  { destruct (Z.le_gt_cases e1 970) as [H | H]; [assumption|]. exfalso.
    assert (He1' : e1 = (d + ex - 53)%Z) by lia.
    assert (Hmxpos : (0 < mx)%Z).
    { destruct (Z.eq_dec mx 0) as [E | E]; [|lia].
      subst mx. unfold d in He1'. simpl in He1'. lia. }
    pose proof (Zdigits2_bounds mx Hmxpos) as [Hdl _]. fold d in Hdl.
    assert (Hd1 : (1 <= d)%Z).
    { destruct mx; try lia; unfold d; simpl; lia. }
    assert (bpow 1023 <= x)%R; [|lra].
    eapply Rle_trans; [|exact Hlo].
    eapply Rle_trans; [apply (bpow_le 1023 ((d - 1) + ex)); lia|].
    rewrite Z.add_comm, bpow_add, Rmult_comm.
    apply Rmult_le_compat_r; [apply Rlt_le, bpow_pos|].
    rewrite bpow_IZR by lia. apply IZR_le. exact Hdl. }
  unfold binary_round_aux, shr_fexp.
  fold d. fold e1. fold n.
  pose proof (shr_spec (shr_record_of_loc mx lx) ex n) as Hshr.
  rewrite shr_record_of_loc_m in Hshr. specialize (Hshr Hmx Hn).
  destruct (shr (shr_record_of_loc mx lx) ex n) as [mrs' e'] eqn:Eshr.
  cbn [fst snd] in Hshr. destruct Hshr as [Hmrs' He'].
  fold m1 in Hmrs'. replace (ex + n)%Z with e1 in He' by (unfold n; lia).
  subst e'. rewrite Hmrs'.
  set (m2 := round_nearest_even m1 (loc_of_shr_record mrs')).
  assert (Hm2 : m2 = m1 \/ m2 = (m1 + 1)%Z) by apply round_nearest_even_cases.
  assert (Hv : (Rabs (IZR m2 * bpow e1 - x) <= bpow e1)%R).
  { pose proof (bpow_pos e1).
    rewrite plus_IZR in Hx2.
    apply Rabs_le. destruct Hm2 as [-> | ->]; [|rewrite plus_IZR]; split; lra. }
  assert (Hm2nn : (0 <= IZR m2 * bpow e1)%R).
  { apply Rmult_le_pos; [apply IZR_le; lia | apply Rlt_le, bpow_pos]. }
  exists (IZR m2 * bpow e1)%R.
  destruct (Z.eq_dec m2 (2 ^ 53)) as [Hcarry | Hnocarry].
  - (* the mantissa carried into a 54th digit: one more exact shift *)
    rewrite Hcarry in *.
    replace (Zdigits2 (2 ^ 53)) with 54%Z by reflexivity.
    replace (fexp prec emax (54 + e1) - e1)%Z with 1%Z
      by (rewrite fexp_spec; lia).
    cbn [shr shr_record_of_loc SpecFloat.iter_pos shr_1 shr_m Z.pow Z.pow_pos Pos.iter Z.mul Pos.mul].
    replace (e1 + 1 <=? emax - prec)%Z with true
      by (symmetry; apply Z.leb_le; change (emax - prec)%Z with 971%Z; lia).
    cbn [SFfinite SF2R].
    split; [reflexivity|]. split; [|split; assumption].
    replace (IZR (Z.pos 4503599627370496) * bpow (e1 + 1))%R
      with (IZR (2 ^ 53) * bpow e1)%R; [reflexivity|].
    rewrite bpow_add, bpow_1.
    change (2 ^ 53)%Z with (4503599627370496 * 2)%Z. rewrite mult_IZR. lra.
  - assert (Hm2lt : (0 <= m2 < 2 ^ 53)%Z) by lia.
    pose proof (Zdigits2_le m2 53 Hm2lt ltac:(lia)) as Hd2.
    rewrite shr_nonpos by (rewrite fexp_spec; lia).
    rewrite shr_record_of_loc_m.
    destruct m2 as [|p|p]; try lia.
    + cbn [SFfinite SF2R]. split; [reflexivity|]. split; [|split; assumption].
      simpl. destruct sx; lra.
    + replace (e1 <=? emax - prec)%Z with true
        by (symmetry; apply Z.leb_le; change (emax - prec)%Z with 971%Z; lia).
      cbn [SFfinite SF2R]. split; [reflexivity|]. split; [reflexivity|].
      split; assumption.
Qed.

Lemma ulp_bound (mx ex : Z) (x : R) :
  (0 < mx)%Z -> (IZR mx * bpow ex <= x)%R ->
  (bpow (fexp prec emax (Zdigits2 mx + ex)) <= u64 * x + eta64)%R.
Proof.
  intros Hmx Hx. rewrite fexp_spec.
  pose proof (bpow_pos ex) as Hbe.
  assert (Hx0 : (0 <= x)%R).
  { eapply Rle_trans; [|exact Hx]. apply Rmult_le_pos; [apply IZR_le; lia | lra]. }
  assert (Hu : (0 < u64)%R) by apply bpow_pos.
  assert (He : (0 < eta64)%R) by apply bpow_pos.
  destruct (Z.max_spec (Zdigits2 mx + ex - 53) (-1074)) as [[_ ->] | [_ ->]].
  - unfold eta64 at 1. fold eta64. nra.
  - replace (Zdigits2 mx + ex - 53)%Z with (-52 + ((Zdigits2 mx - 1) + ex))%Z by lia.
    rewrite bpow_add. fold u64.
    assert (bpow (Zdigits2 mx - 1 + ex) <= x)%R; [|nra].
    eapply Rle_trans; [|exact Hx].
    rewrite bpow_add. apply Rmult_le_compat_r; [lra|].
    pose proof (Zdigits2_bounds mx Hmx) as [Hlo _].
    assert (1 <= Zdigits2 mx)%Z by (destruct mx; simpl; lia).
    rewrite bpow_IZR by lia. apply IZR_le. exact Hlo.
Qed.

(** What validity says of a finite datum. *)
Lemma valid_finite (s : bool) (m : positive) (e : Z) :
  valid_binary (S754_finite s m e) = true ->
  e = Z.max (Zpos (digits2_pos m) + e - 53) (-1074) /\ (e <= 971)%Z.
Proof.
  unfold SpecFloat.valid_binary, bounded, canonical_mantissa.
  intros H. apply andb_true_iff in H. destruct H as [H1 H2].
  apply Z.eqb_eq in H1. apply Z.leb_le in H2.
  rewrite fexp_spec in H1. change (emax - prec)%Z with 971%Z in H2. lia.
Qed.

Lemma digits2_pos_pos (m : positive) : (1 <= Zpos (digits2_pos m))%Z.
Proof. lia. Qed.

Lemma digits_mul (mx my : positive) :
  (Zpos (digits2_pos mx) + Zpos (digits2_pos my) - 1 <= Zdigits2 (Zpos (mx * my)))%Z.
Proof.
  pose proof (digits2_pos_bounds mx) as [Hx _].
  pose proof (digits2_pos_bounds my) as [Hy _].
  replace (Zpos (digits2_pos mx) + Zpos (digits2_pos my) - 1)%Z
    with ((Zpos (digits2_pos mx) - 1 + (Zpos (digits2_pos my) - 1)) + 1)%Z by lia.
  apply Zdigits2_ge; [|lia].
  rewrite Z.pow_add_r by lia. rewrite Pos2Z.inj_mul.
  apply Z.mul_le_mono_nonneg; try lia; apply Z.pow_nonneg; lia.
Qed.

Lemma fexp_mono (a b : Z) : (a <= b)%Z -> (fexp prec emax a <= fexp prec emax b)%Z.
Proof. rewrite !fexp_spec. lia. Qed.

Lemma mag_pos (m : positive) (e : Z) : (0 < mag m e)%R.
Proof.
  unfold mag. apply Rmult_lt_0_compat; [apply IZR_lt; lia | apply bpow_pos].
Qed.

Lemma SF2R_finite (s : bool) (m : positive) (e : Z) :
  SF2R (S754_finite s m e) = (if s then - mag m e else mag m e)%R.
Proof. reflexivity. Qed.

(** The product of two finite numbers: when the exact product is below the
    overflow threshold, the computed one is finite and within
    [u64 * |z| + eta64] of the exact product [z]. *)
Theorem mul_error (a b : float) :
  finite a -> finite b ->
  (Rabs (F2R a * F2R b) < bpow 1023)%R ->
  finite (a * b) /\
  (Rabs (F2R (a * b) - F2R a * F2R b) <= u64 * Rabs (F2R a * F2R b) + eta64)%R.
Proof.
  unfold finite, F2R. intros Ha Hb Hov.
  rewrite mul_spec. unfold SF64mul.
  pose proof (Prim2SF_valid a) as Va. pose proof (Prim2SF_valid b) as Vb.
  assert (Hz : (0 <= u64 * Rabs (SF2R (Prim2SF a) * SF2R (Prim2SF b)) + eta64)%R).
  { pose proof (bpow_pos (-52)). pose proof (bpow_pos (-1074)).
    pose proof (Rabs_pos (SF2R (Prim2SF a) * SF2R (Prim2SF b))).
    unfold u64, eta64. nra. }
  destruct (Prim2SF a) as [sa | sa | | sa ma ea]; try discriminate Ha;
    destruct (Prim2SF b) as [sb | sb | | sb mb eb]; try discriminate Hb;
    cbn [SFmul].
  - split; [reflexivity|]. cbn [SF2R] in *. rewrite Rmult_0_l, Rminus_0_r, Rabs_R0 in *. lra.
  - split; [reflexivity|]. cbn [SF2R] in *. rewrite Rmult_0_l, Rminus_0_r, Rabs_R0 in *. lra.
  - split; [reflexivity|]. cbn [SF2R] in *. rewrite Rmult_0_r, Rminus_0_r, Rabs_R0 in *. lra.
  - apply valid_finite in Va, Vb. destruct Va as [Va1 Va2], Vb as [Vb1 Vb2].
    rewrite !SF2R_finite in *.
    pose proof (mag_pos ma ea) as Pa. pose proof (mag_pos mb eb) as Pb.
    set (x := (mag ma ea * mag mb eb)%R) in *.
    assert (Hx : (IZR (Zpos (ma * mb)) * bpow (ea + eb))%R = x).
    { unfold x, mag. rewrite Pos2Z.inj_mul, mult_IZR, bpow_add. ring. }
    assert (Hxpos : (0 < x)%R) by (unfold x; nra).
    assert (Habs : Rabs ((if sa then - mag ma ea else mag ma ea)
                         * (if sb then - mag mb eb else mag mb eb)) = x).
    { destruct sa, sb; unfold x;
        [replace (- mag ma ea * - mag mb eb)%R with (mag ma ea * mag mb eb)%R by ring
        |replace (- mag ma ea * mag mb eb)%R with (- (mag ma ea * mag mb eb))%R by ring;
         rewrite Rabs_Ropp
        |replace (mag ma ea * - mag mb eb)%R with (- (mag ma ea * mag mb eb))%R by ring;
         rewrite Rabs_Ropp
        |]; apply Rabs_pos_eq; nra. }
    rewrite Habs in *.
    pose proof (digits_mul ma mb) as Hdig.
    destruct (binary_round_aux_spec (xorb sa sb) (Zpos (ma * mb)) (ea + eb) loc_Exact x)
      as (v & Hfin & Hval & Hv0 & Hverr).
    + lia.
    + rewrite fexp_spec. lia.
    + rewrite Hx, plus_IZR, Rmult_plus_distr_r, Hx.
      pose proof (bpow_pos (ea + eb)). lra.
    + assumption.
    + split; [assumption|]. rewrite Hval.
      pose proof (ulp_bound (Zpos (ma * mb)) (ea + eb) x ltac:(lia) ltac:(rewrite Hx; lra)) as Hulp.
      eapply Rle_trans; [|exact Hulp].
      eapply Rle_trans; [|exact Hverr].
      right. destruct sa, sb; cbn [xorb];
        match goal with
        | |- Rabs ?t = _ =>
            (replace t with (v - x)%R by (unfold x; ring)) ||
            (replace t with (- (v - x))%R by (unfold x; ring); rewrite Rabs_Ropp)
        end; reflexivity.
Qed.

Lemma iter_xO_value (m d : positive) :
  Zpos (Pos.iter xO m d) = (Zpos m * 2 ^ Zpos d)%Z.
Proof.
  induction d as [|d IH] using Pos.peano_ind.
  - simpl. lia.
  - rewrite Pos.iter_succ, Pos2Z.inj_xO, IH, Pos2Z.inj_succ, Z.pow_succ_r by lia. lia.
Qed.

Lemma iter_xO_digits (m d : positive) :
  Zpos (digits2_pos (Pos.iter xO m d)) = (Zpos (digits2_pos m) + Zpos d)%Z.
Proof.
  induction d as [|d IH] using Pos.peano_ind.
  - simpl. lia.
  - rewrite Pos.iter_succ. cbn [digits2_pos]. lia.
Qed.

Lemma shl_align_spec (mx : positive) (ex ex' : Z) :
  snd (shl_align mx ex ex') = Z.min ex ex' /\
  mag (fst (shl_align mx ex ex')) (snd (shl_align mx ex ex')) = mag mx ex /\
  (Zpos (digits2_pos (fst (shl_align mx ex ex'))) + snd (shl_align mx ex ex')
   = Zpos (digits2_pos mx) + ex)%Z.
Proof.
  unfold shl_align.
  destruct (ex' - ex)%Z as [|d|d] eqn:E; cbn [fst snd].
  - repeat split; lia.
  - repeat split; lia.
  - split; [lia|]. split.
    + unfold mag. rewrite iter_xO_value.
      replace ex with (ex' + Zpos d)%Z by lia.
      rewrite IZR_bpow_shift by lia. reflexivity.
    + rewrite iter_xO_digits. lia.
Qed.

(** Rounding the positive number [mx * 2^ex]. *)
Lemma binary_round_spec (sx : bool) (mx : positive) (ex : Z) :
  (mag mx ex < bpow 1023)%R ->
  exists v : R,
    SFfinite (binary_round prec emax sx mx ex) = true /\
    SF2R (binary_round prec emax sx mx ex) = (if sx then - v else v)%R /\
    (0 <= v)%R /\
    (Rabs (v - mag mx ex) <= u64 * mag mx ex + eta64)%R.
Proof.
  intros Hov. unfold binary_round.
  pose proof (shl_align_spec mx ex (fexp prec emax (Zpos (digits2_pos mx) + ex)))
    as (Hsnd & Hmag & Hdig).
  destruct (shl_align mx ex (fexp prec emax (Zpos (digits2_pos mx) + ex)))
    as [mz ez] eqn:E.
  cbn [fst snd] in *.
  destruct (binary_round_aux_spec sx (Zpos mz) ez loc_Exact (mag mx ex))
    as (v & Hfin & Hval & Hv0 & Hverr).
  - lia.
  - cbn [Zdigits2]. rewrite Hdig. lia.
  - rewrite plus_IZR, Rmult_plus_distr_r. fold (mag mz ez). rewrite Hmag.
    pose proof (bpow_pos ez). lra.
  - assumption.
  - exists v. repeat split; try assumption.
    eapply Rle_trans; [exact Hverr|].
    apply ulp_bound; [lia|]. fold (mag mz ez). rewrite Hmag. lra.
Qed.

(** Rounding the number [m * 2^e], of either sign. *)
Lemma binary_normalize_spec (m e : Z) (szero : bool) :
  (Rabs (IZR m * bpow e) < bpow 1023)%R ->
  SFfinite (binary_normalize prec emax m e szero) = true /\
  (Rabs (SF2R (binary_normalize prec emax m e szero) - IZR m * bpow e)
   <= u64 * Rabs (IZR m * bpow e) + eta64)%R.
Proof.
  intros Hov. pose proof (bpow_pos e) as Hbe.
  pose proof (bpow_pos (-1074)) as Heta. fold eta64 in Heta.
  destruct m as [|p|p]; cbn [binary_normalize].
  - split; [reflexivity|]. cbn [SF2R].
    rewrite Rmult_0_l, Rminus_0_r, Rabs_R0. lra.
  - fold (mag p e) in *. pose proof (mag_pos p e) as Hp.
    rewrite (Rabs_pos_eq (mag p e)) in * by lra.
    destruct (binary_round_spec false p e Hov) as (v & Hfin & Hval & _ & Herr).
    split; [assumption|]. now rewrite Hval.
  - replace (IZR (Zneg p) * bpow e)%R with (- mag p e)%R in *
      by (unfold mag; change (Zneg p) with (- Zpos p)%Z; rewrite opp_IZR; ring).
    pose proof (mag_pos p e) as Hp.
    rewrite Rabs_Ropp, (Rabs_pos_eq (mag p e)) in * by lra.
    destruct (binary_round_spec true p e Hov) as (v & Hfin & Hval & _ & Herr).
    split; [assumption|]. rewrite Hval.
    replace (- v - - mag p e)%R with (- (v - mag p e))%R by ring.
    now rewrite Rabs_Ropp.
Qed.

Lemma cond_Zopp_align (s : bool) (m : positive) (e ez : Z) :
  (ez <= e)%Z ->
  (IZR (cond_Zopp s (Zpos (fst (shl_align m e ez)))) * bpow ez)%R
  = SF2R (S754_finite s m e).
Proof.
  intros Hez.
  pose proof (shl_align_spec m e ez) as (Hsnd & Hmag & _).
  rewrite Z.min_r in Hsnd by assumption. rewrite Hsnd in Hmag.
  rewrite SF2R_finite, <- Hmag. unfold mag.
  destruct s; cbn [cond_Zopp]; [rewrite opp_IZR|]; ring.
Qed.

(** The same for the sum. *)
Theorem add_error (a b : float) :
  finite a -> finite b ->
  (Rabs (F2R a + F2R b) < bpow 1023)%R ->
  finite (a + b) /\
  (Rabs (F2R (a + b) - (F2R a + F2R b)) <= u64 * Rabs (F2R a + F2R b) + eta64)%R.
Proof.
  unfold finite, F2R. intros Ha Hb Hov.
  rewrite add_spec. unfold SF64add.
  assert (Hz : forall t : R, (Rabs (t - t) <= u64 * Rabs t + eta64)%R).
  { intros t. pose proof (bpow_pos (-52)). pose proof (bpow_pos (-1074)).
    pose proof (Rabs_pos t). unfold u64, eta64.
    replace (t - t)%R with 0%R by ring. rewrite Rabs_R0. nra. }
  destruct (Prim2SF a) as [sa | sa | | sa ma ea] eqn:Ea; try discriminate Ha;
    destruct (Prim2SF b) as [sb | sb | | sb mb eb] eqn:Eb; try discriminate Hb;
    cbn [SFadd].
  - split; [destruct sa, sb; reflexivity|].
    replace (SF2R (if _ : bool then _ else _)) with 0%R
      by (destruct sa, sb; reflexivity).
    cbn [SF2R]. replace (0 + 0)%R with 0%R by ring. apply (Hz 0%R).
  - split; [reflexivity|]. change (SF2R (S754_zero sa)) with 0%R. rewrite !Rplus_0_l. apply Hz.
  - split; [reflexivity|]. change (SF2R (S754_zero sb)) with 0%R. rewrite !Rplus_0_r. apply Hz.
  - set (ez := Z.min ea eb).
    rewrite <- (cond_Zopp_align sa ma ea ez) in * by (unfold ez; lia).
    rewrite <- (cond_Zopp_align sb mb eb ez) in * by (unfold ez; lia).
    rewrite <- Rmult_plus_distr_r, <- plus_IZR in *.
    apply binary_normalize_spec. assumption.
Qed.

(** The same for the difference. *)
Theorem sub_error (a b : float) :
  finite a -> finite b ->
  (Rabs (F2R a - F2R b) < bpow 1023)%R ->
  finite (a - b) /\
  (Rabs (F2R (a - b) - (F2R a - F2R b)) <= u64 * Rabs (F2R a - F2R b) + eta64)%R.
Proof.
  unfold finite, F2R. intros Ha Hb Hov.
  rewrite sub_spec. unfold SF64sub.
  assert (Hz : forall t : R, (Rabs (t - t) <= u64 * Rabs t + eta64)%R).
  { intros t. pose proof (bpow_pos (-52)). pose proof (bpow_pos (-1074)).
    pose proof (Rabs_pos t). unfold u64, eta64.
    replace (t - t)%R with 0%R by ring. rewrite Rabs_R0. nra. }
  destruct (Prim2SF a) as [sa | sa | | sa ma ea] eqn:Ea; try discriminate Ha;
    destruct (Prim2SF b) as [sb | sb | | sb mb eb] eqn:Eb; try discriminate Hb;
    cbn [SFsub].
  - split; [destruct sa, sb; reflexivity|].
    replace (SF2R (if _ : bool then _ else _)) with 0%R
      by (destruct sa, sb; reflexivity).
    cbn [SF2R]. replace (0 - 0)%R with 0%R by ring. apply (Hz 0%R).
  - split; [reflexivity|].
    replace (SF2R (S754_finite (negb sb) mb eb))
      with (SF2R (S754_zero sa) - SF2R (S754_finite sb mb eb))%R
      by (rewrite !SF2R_finite; cbn [SF2R]; destruct sb; cbn [negb]; ring).
    apply Hz.
  - split; [reflexivity|]. change (SF2R (S754_zero sb)) with 0%R. rewrite !Rminus_0_r. apply Hz.
  - set (ez := Z.min ea eb).
    rewrite <- (cond_Zopp_align sa ma ea ez) in * by (unfold ez; lia).
    rewrite <- (cond_Zopp_align sb mb eb ez) in * by (unfold ez; lia).
    rewrite <- Rmult_minus_distr_r, <- minus_IZR in *.
    apply binary_normalize_spec. assumption.
Qed.

Lemma bpow_sub (a b : Z) : bpow (a - b) = (bpow a / bpow b)%R.
Proof.
  pose proof (bpow_pos b).
  replace a with ((a - b) + b)%Z at 2 by lia. rewrite bpow_add. field. lra.
Qed.

(** The quotient of two positive data, as [SFdiv_core_binary] hands it to the
    rounding: an integer mantissa one unit below at most, at an exponent the
    rounding can only raise. *)
Lemma div_core_spec (mx my : positive) (ex ey : Z) :
  let x := (mag mx ex / mag my ey)%R in
  let '(q, e', l) := SFdiv_core_binary prec emax (Zpos mx) ex (Zpos my) ey in
  (0 <= q)%Z /\
  (e' <= fexp prec emax (Zdigits2 q + e'))%Z /\
  (IZR q * bpow e' <= x <= IZR (q + 1) * bpow e')%R /\
  (bpow (fexp prec emax (Zdigits2 q + e')) <= u64 * x + eta64)%R.
Proof.
  intros x. unfold SFdiv_core_binary. cbn [Zdigits2].
  set (d1 := Zpos (digits2_pos mx)). set (d2 := Zpos (digits2_pos my)).
  set (E0 := (d1 + ex - (d2 + ey))%Z).
  set (e' := Z.min (fexp prec emax E0) (ex - ey)).
  set (s := (ex - ey - e')%Z).
  assert (Hs : (0 <= s)%Z) by (unfold s, e'; lia).
  set (m' := match s with
             | 0%Z => Zpos mx
             | Zpos _ => Z.shiftl (Zpos mx) s
             | Zneg _ => 0%Z
             end).
  assert (Hm' : m' = (Zpos mx * 2 ^ s)%Z).
  { unfold m'. destruct s as [|p|p] eqn:Es; try lia.
    apply Z.shiftl_mul_pow2. lia. }
  clearbody m'.
  pose proof (Z_div_mod m' (Zpos my) ltac:(lia)) as Hdm.
  destruct (Z.div_eucl m' (Zpos my)) as [q r].
  destruct Hdm as [Hq Hr].
  pose proof (digits2_pos_bounds mx) as [Hx1 Hx2]. fold d1 in Hx1, Hx2.
  pose proof (digits2_pos_bounds my) as [Hy1 Hy2]. fold d2 in Hy1, Hy2.
  assert (Hd1 : (1 <= d1)%Z) by (unfold d1; lia).
  assert (Hd2 : (1 <= d2)%Z) by (unfold d2; lia).
  assert (Hps : (0 < 2 ^ s)%Z) by (apply Z.pow_pos_nonneg; lia).
  assert (Hm'pos : (0 < m')%Z) by (rewrite Hm'; apply Z.mul_pos_pos; lia).
  assert (Hq0 : (0 <= q)%Z) by nia.
  pose proof (mag_pos mx ex) as Px. pose proof (mag_pos my ey) as Py.
  assert (Hxpos : (0 < x)%R) by (unfold x; apply Rdiv_lt_0_compat; assumption).
  (* the quotient in the reals *)
  assert (Hxq : (x * IZR (Zpos my) = IZR m' * bpow e')%R).
  { unfold x, mag. rewrite Hm', mult_IZR.
    rewrite <- (bpow_IZR s) by assumption.
    replace ex with (s + e' + ey)%Z at 1 by (unfold s; lia).
    rewrite !bpow_add. pose proof (bpow_pos ey).
    assert (IZR (Zpos my) <> 0)%R by (apply not_0_IZR; lia).
    field. split; lra. }
  assert (Hmy : (0 < IZR (Zpos my))%R) by (apply IZR_lt; lia).
  pose proof (bpow_pos e') as Hbe'.
  assert (Hlo : (IZR q * bpow e' <= x)%R).
  { apply Rmult_le_reg_r with (IZR (Zpos my)); [assumption|].
    rewrite Hxq.
    replace (IZR q * bpow e' * IZR (Zpos my))%R
      with (IZR (Zpos my * q) * bpow e')%R by (rewrite mult_IZR; ring).
    apply Rmult_le_compat_r; [lra|]. apply IZR_le. lia. }
  assert (Hhi : (x <= IZR (q + 1) * bpow e')%R).
  { apply Rmult_le_reg_r with (IZR (Zpos my)); [assumption|].
    rewrite Hxq.
    replace (IZR (q + 1) * bpow e' * IZR (Zpos my))%R
      with (IZR (Zpos my * (q + 1)) * bpow e')%R by (rewrite mult_IZR; ring).
    apply Rmult_le_compat_r; [lra|]. apply IZR_le. lia. }
  (* either the quotient has enough digits, or the exponent is the least one *)
  assert (Hcase : ((2 ^ (E0 - 1 - e') <= q /\ 0 <= E0 - 1 - e') \/ e' <= -1074)%Z).
  { destruct (Z.le_gt_cases 0 (E0 - 1 - e')) as [Hk | Hk].
    - left. split; [|assumption].
      assert (Hle : (2 ^ (E0 - 1 - e') * Zpos my <= m')%Z).
      { rewrite Hm'.
        apply Z.le_trans with (2 ^ (E0 - 1 - e') * 2 ^ d2)%Z.
        - apply Z.mul_le_mono_nonneg_l; [apply Z.pow_nonneg; lia | lia].
        - rewrite <- Z.pow_add_r by lia.
          replace (E0 - 1 - e' + d2)%Z with ((d1 - 1) + s)%Z by (unfold E0, s; lia).
          rewrite Z.pow_add_r by lia.
          apply Z.mul_le_mono_nonneg_r; lia. }
      assert (Hpk : (0 < 2 ^ (E0 - 1 - e'))%Z) by (apply Z.pow_pos_nonneg; lia).
      nia.
    - right. unfold e' in *. rewrite fexp_spec in *. lia. }
  assert (Hfe : (e' <= fexp prec emax (Zdigits2 q + e'))%Z).
  { destruct Hcase as [[Hq2 Hk] | Hmin].
    - pose proof (Zdigits2_ge q (E0 - 1 - e') Hq2 Hk) as Hdq.
      apply Z.le_trans with (fexp prec emax E0); [unfold e'; lia|].
      apply fexp_mono. lia.
    - rewrite fexp_spec. lia. }
  repeat split; try assumption.
  destruct (Z.eq_dec q 0) as [-> | Hqne].
  - cbn [Zdigits2].
    assert (e' <= -1074)%Z.
    { destruct Hcase as [[Hq2 Hk] | Hmin]; [|assumption].
      assert (0 < 2 ^ (E0 - 1 - e'))%Z by (apply Z.pow_pos_nonneg; lia). lia. }
    rewrite fexp_spec. replace (Z.max (0 + e' - 53) (-1074)) with (-1074)%Z by lia.
    fold eta64. pose proof (bpow_pos (-52)). fold u64 in *. nra.
  - apply ulp_bound; [lia | assumption].
Qed.

(** The same for the quotient, the divisor not being zero. *)
Theorem div_error (a b : float) :
  finite a -> finite b -> F2R b <> 0%R ->
  (Rabs (F2R a / F2R b) < bpow 1023)%R ->
  finite (a / b) /\
  (Rabs (F2R (a / b) - F2R a / F2R b) <= u64 * Rabs (F2R a / F2R b) + eta64)%R.
Proof.
  unfold finite, F2R. intros Ha Hb Hnz Hov.
  rewrite div_spec. unfold SF64div.
  destruct (Prim2SF a) as [sa | sa | | sa ma ea] eqn:Ea; try discriminate Ha;
    destruct (Prim2SF b) as [sb | sb | | sb mb eb] eqn:Eb; try discriminate Hb;
    cbn [SFdiv]; try (exfalso; apply Hnz; reflexivity).
  - split; [reflexivity|]. cbn [SF2R].
    unfold Rdiv. rewrite Rmult_0_l, Rminus_0_r, Rabs_R0.
    pose proof (bpow_pos (-1074)). unfold eta64. lra.
  - pose proof (div_core_spec ma mb ea eb) as Hcore. cbv zeta in Hcore.
    destruct (SFdiv_core_binary prec emax (Zpos ma) ea (Zpos mb) eb) as [[q e'] l].
    destruct Hcore as (Hq & Hfe & Hx & Hulp).
    pose proof (mag_pos ma ea) as Pa. pose proof (mag_pos mb eb) as Pb.
    set (x := (mag ma ea / mag mb eb)%R) in *.
    assert (Hxpos : (0 < x)%R) by (unfold x; apply Rdiv_lt_0_compat; assumption).
    rewrite !SF2R_finite in *.
    assert (Habs : Rabs ((if sa then - mag ma ea else mag ma ea)
                         / (if sb then - mag mb eb else mag mb eb)) = x).
    { destruct sa, sb; unfold x;
        [replace (- mag ma ea / - mag mb eb)%R with (mag ma ea / mag mb eb)%R
           by (field; lra)
        |replace (- mag ma ea / mag mb eb)%R with (- (mag ma ea / mag mb eb))%R
           by (field; lra); rewrite Rabs_Ropp
        |replace (mag ma ea / - mag mb eb)%R with (- (mag ma ea / mag mb eb))%R
           by (field; lra); rewrite Rabs_Ropp
        |]; apply Rabs_pos_eq; fold x; lra. }
    rewrite Habs in *.
    destruct (binary_round_aux_spec (xorb sa sb) q e' l x Hq Hfe Hx Hov)
      as (v & Hfin & Hval & Hv0 & Hverr).
    split; [assumption|]. rewrite Hval.
    eapply Rle_trans; [|exact Hulp].
    eapply Rle_trans; [|exact Hverr].
    right. destruct sa, sb; cbn [xorb];
      match goal with
      | |- Rabs ?t = _ =>
          (replace t with (v - x)%R by (unfold x; field; lra)) ||
          (replace t with (- (v - x))%R by (unfold x; field; lra); rewrite Rabs_Ropp)
      end; reflexivity.
Qed.

Lemma sqrt_bpow_double (e : Z) (y : R) :
  (0 <= y)%R -> sqrt (y * bpow (2 * e)) = (sqrt y * bpow e)%R.
Proof.
  intros Hy. pose proof (bpow_pos e).
  replace (2 * e)%Z with (e + e)%Z by lia. rewrite bpow_add.
  rewrite sqrt_mult by (try apply Rmult_le_pos; lra).
  rewrite sqrt_square by lra. reflexivity.
Qed.

Lemma sqrt_core_spec (mx : positive) (ex : Z) :
  let x := sqrt (mag mx ex) in
  let '(q, e', l) := SFsqrt_core_binary prec emax (Zpos mx) ex in
  (0 <= q)%Z /\
  (e' <= fexp prec emax (Zdigits2 q + e'))%Z /\
  (IZR q * bpow e' <= x <= IZR (q + 1) * bpow e')%R /\
  (bpow (fexp prec emax (Zdigits2 q + e')) <= u64 * x + eta64)%R.
Proof.
  intros x. unfold SFsqrt_core_binary. cbn [Zdigits2].
  set (d := Zpos (digits2_pos mx)).
  set (E0 := Z.div2 (d + ex + 1)).
  set (e' := Z.min (fexp prec emax E0) (Z.div2 ex)).
  set (s := (ex - 2 * e')%Z).
  assert (HE0 : (2 * E0 <= d + ex + 1 < 2 * E0 + 2)%Z).
  { unfold E0. rewrite Z.div2_div.
    pose proof (Z.mul_div_le (d + ex + 1) 2 ltac:(lia)).
    pose proof (Z.mul_succ_div_gt (d + ex + 1) 2 ltac:(lia)). lia. }
  assert (Hd2 : (2 * Z.div2 ex <= ex)%Z).
  { rewrite Z.div2_div. apply Z.mul_div_le. lia. }
  assert (Hs : (0 <= s)%Z) by (unfold s, e'; lia).
  set (m' := match s with
             | 0%Z => Zpos mx
             | Zpos _ => Z.shiftl (Zpos mx) s
             | Zneg _ => 0%Z
             end).
  assert (Hm' : m' = (Zpos mx * 2 ^ s)%Z).
  { unfold m'. destruct s as [|p|p] eqn:Es; try lia.
    apply Z.shiftl_mul_pow2. lia. }
  clearbody m'.
  assert (Hps : (0 < 2 ^ s)%Z) by (apply Z.pow_pos_nonneg; lia).
  assert (Hm'pos : (0 < m')%Z) by (rewrite Hm'; apply Z.mul_pos_pos; lia).
  pose proof (Z.sqrtrem_spec m' ltac:(lia)) as Hsq.
  destruct (Z.sqrtrem m') as [q r]. destruct Hsq as [Hq Hr].
  assert (Hq1 : (1 <= q)%Z) by nia.
  pose proof (digits2_pos_bounds mx) as [Hx1 Hx2]. fold d in Hx1, Hx2.
  assert (Hd1 : (1 <= d)%Z) by (unfold d; lia).
  pose proof (bpow_pos e') as Hbe'.
  (* the root in the reals *)
  assert (Hxm : x = (sqrt (IZR m') * bpow e')%R).
  { unfold x, mag. rewrite <- sqrt_bpow_double by (apply IZR_le; lia).
    f_equal. rewrite Hm', mult_IZR, <- (bpow_IZR s) by assumption.
    replace ex with (s + 2 * e')%Z at 1 by (unfold s; lia).
    rewrite bpow_add. ring. }
  assert (Hlo : (IZR q <= sqrt (IZR m'))%R).
  { rewrite <- (sqrt_square (IZR q)) by (apply IZR_le; lia).
    apply sqrt_le_1_alt. rewrite <- mult_IZR. apply IZR_le. nia. }
  assert (Hhi : (sqrt (IZR m') <= IZR (q + 1))%R).
  { rewrite <- (sqrt_square (IZR (q + 1))) by (apply IZR_le; lia).
    apply sqrt_le_1_alt. rewrite <- mult_IZR. apply IZR_le. nia. }
  assert (Hcase : ((2 ^ (E0 - 1 - e') <= q /\ 0 <= E0 - 1 - e') \/ e' <= -1074)%Z).
  { destruct (Z.le_gt_cases 0 (E0 - 1 - e')) as [Hk | Hk].
    - left. split; [|assumption].
      set (k := (E0 - 1 - e')%Z) in *.
      assert (Hpk : (0 < 2 ^ k)%Z) by (apply Z.pow_pos_nonneg; lia).
      assert (Hle : (2 ^ k * 2 ^ k <= m')%Z).
      { rewrite Hm', <- Z.pow_add_r by lia.
        apply Z.le_trans with (2 ^ ((d - 1) + s))%Z.
        - apply Z.pow_le_mono_r; [lia|]. unfold k, s. lia.
        - rewrite Z.pow_add_r by lia. apply Z.mul_le_mono_nonneg_r; lia. }
      destruct (Z.le_gt_cases (2 ^ k) q) as [H | H]; [assumption|]. exfalso.
      assert (q + 1 <= 2 ^ k)%Z by lia.
      assert ((q + 1) * (q + 1) <= 2 ^ k * 2 ^ k)%Z by (apply Z.mul_le_mono_nonneg; lia).
      nia.
    - right. unfold e' in *. rewrite fexp_spec in *. lia. }
  assert (Hfe : (e' <= fexp prec emax (Zdigits2 q + e'))%Z).
  { destruct Hcase as [[Hq2 Hk] | Hmin].
    - pose proof (Zdigits2_ge q (E0 - 1 - e') Hq2 Hk) as Hdq.
      apply Z.le_trans with (fexp prec emax E0); [unfold e'; lia|].
      apply fexp_mono. lia.
    - rewrite fexp_spec. lia. }
  assert (Hxlo : (IZR q * bpow e' <= x)%R).
  { rewrite Hxm. apply Rmult_le_compat_r; lra. }
  split; [lia|]. split; [assumption|]. split.
  - split; [assumption|]. rewrite Hxm. apply Rmult_le_compat_r; lra.
  - apply ulp_bound; [lia | assumption].
Qed.

(** The same for the square root of a number that is not negative. *)
Theorem sqrt_error (a : float) :
  finite a -> (0 <= F2R a)%R ->
  (sqrt (F2R a) < bpow 1023)%R ->
  finite (PrimFloat.sqrt a) /\
  (Rabs (F2R (PrimFloat.sqrt a) - sqrt (F2R a)) <= u64 * sqrt (F2R a) + eta64)%R.
Proof.
  unfold finite, F2R. intros Ha Hpos Hov.
  rewrite sqrt_spec. unfold SF64sqrt.
  destruct (Prim2SF a) as [sa | sa | | sa ma ea] eqn:Ea; try discriminate Ha;
    cbn [SFsqrt].
  - split; [reflexivity|]. cbn [SF2R]. rewrite sqrt_0, Rminus_0_r, Rabs_R0.
    pose proof (bpow_pos (-1074)). unfold eta64. lra.
  - rewrite SF2R_finite in *. pose proof (mag_pos ma ea) as Pa.
    destruct sa; [lra|].
    pose proof (sqrt_core_spec ma ea) as Hcore. cbv zeta in Hcore.
    destruct (SFsqrt_core_binary prec emax (Zpos ma) ea) as [[q e'] l].
    destruct Hcore as (Hq & Hfe & Hx & Hulp).
    destruct (binary_round_aux_spec false q e' l (sqrt (mag ma ea)) Hq Hfe Hx Hov)
      as (v & Hfin & Hval & Hv0 & Hverr).
    split; [assumption|]. rewrite Hval.
    eapply Rle_trans; [exact Hverr | exact Hulp].
Qed.

(** Among valid data, the one with the smaller exponent is the smaller. *)
Lemma mag_lt_exponent (s1 s2 : bool) (m1 m2 : positive) (e1 e2 : Z) :
  valid_binary (S754_finite s1 m1 e1) = true ->
  valid_binary (S754_finite s2 m2 e2) = true ->
  (e1 < e2)%Z -> (mag m1 e1 < mag m2 e2)%R.
Proof.
  intros V1 V2 Hlt.
  apply valid_finite in V1, V2. destruct V1 as [V1 _], V2 as [V2 _].
  pose proof (digits2_pos_bounds m1) as [_ H1].
  pose proof (digits2_pos_bounds m2) as [H2 _].
  assert (Hd1 : (Zpos (digits2_pos m1) <= 53)%Z) by lia.
  assert (Hd2 : Zpos (digits2_pos m2) = 53%Z) by lia.
  rewrite Hd2 in H2.
  assert (Hm1 : (Zpos m1 < 2 ^ 53)%Z).
  { eapply Z.lt_le_trans; [exact H1|]. apply Z.pow_le_mono_r; lia. }
  unfold mag.
  pose proof (bpow_pos e1) as P1. pose proof (bpow_pos e2) as P2.
  apply Rlt_le_trans with (IZR (2 ^ 53) * bpow e1)%R.
  - apply Rmult_lt_compat_r; [assumption | apply IZR_lt; assumption].
  - apply Rle_trans with (IZR (2 ^ 52) * bpow (e1 + 1))%R.
    + rewrite bpow_add, bpow_1.
      change (2 ^ 53)%Z with (2 ^ 52 * 2)%Z. rewrite mult_IZR. lra.
    + apply Rmult_le_compat; try (apply IZR_le; lia).
      * apply Rlt_le, bpow_pos.
      * apply bpow_le. lia.
Qed.

Lemma mag_compare_mantissa (m1 m2 : positive) (e : Z) :
  match Pos.compare m1 m2 with
  | Lt => (mag m1 e < mag m2 e)%R
  | Eq => mag m1 e = mag m2 e
  | Gt => (mag m1 e > mag m2 e)%R
  end.
Proof.
  unfold mag. pose proof (bpow_pos e).
  destruct (Pos.compare_spec m1 m2) as [-> | Hlt | Hgt].
  - reflexivity.
  - apply Rmult_lt_compat_r; [assumption | apply IZR_lt; lia].
  - apply Rmult_lt_compat_r; [assumption | apply IZR_lt; lia].
Qed.

(** [SFcompare] orders valid finite data as the reals order their values. *)
Lemma SFcompare_finite (x y : spec_float) :
  valid_binary x = true -> valid_binary y = true ->
  SFfinite x = true -> SFfinite y = true ->
  match SFcompare x y with
  | Some Lt => (SF2R x < SF2R y)%R
  | Some Eq => SF2R x = SF2R y
  | Some Gt => (SF2R x > SF2R y)%R
  | None => False
  end.
Proof.
  intros Vx Vy Fx Fy.
  destruct x as [sx | sx | | sx mx ex]; try discriminate Fx;
    destruct y as [sy | sy | | sy my ey]; try discriminate Fy;
    cbn [SFcompare].
  - reflexivity.
  - rewrite SF2R_finite. pose proof (mag_pos my ey). cbn [SF2R].
    destruct sy; lra.
  - rewrite SF2R_finite. pose proof (mag_pos mx ex). cbn [SF2R].
    destruct sx; lra.
  - rewrite !SF2R_finite.
    pose proof (mag_pos mx ex) as Px. pose proof (mag_pos my ey) as Py.
    destruct sx, sy; try lra.
    + destruct (Z.compare_spec ex ey) as [-> | Hlt | Hgt].
      * rewrite Pos.compare_cont_spec.
        pose proof (mag_compare_mantissa mx my ey) as Hc.
        destruct (Pos.compare mx my); cbn [CompOpp Pos.switch_Eq] in *; lra.
      * pose proof (mag_lt_exponent true true mx my ex ey Vx Vy Hlt). lra.
      * pose proof (mag_lt_exponent true true my mx ey ex Vy Vx Hgt). lra.
    + destruct (Z.compare_spec ex ey) as [-> | Hlt | Hgt].
      * rewrite Pos.compare_cont_spec.
        pose proof (mag_compare_mantissa mx my ey) as Hc.
        destruct (Pos.compare mx my); cbn [CompOpp Pos.switch_Eq] in *; lra.
      * pose proof (mag_lt_exponent false false mx my ex ey Vx Vy Hlt). lra.
      * pose proof (mag_lt_exponent false false my mx ey ex Vy Vx Hgt). lra.
Qed.

(** On finite numbers, the binary64 test [<=] is [<=] on the values. *)
Theorem leb_finite (a b : float) :
  finite a -> finite b ->
  (PrimFloat.leb a b = true <-> (F2R a <= F2R b)%R).
Proof.
  unfold finite, F2R. intros Ha Hb.
  rewrite leb_spec. unfold SFleb.
  pose proof (SFcompare_finite (Prim2SF a) (Prim2SF b)
                (Prim2SF_valid a) (Prim2SF_valid b) Ha Hb) as Hc.
  destruct (SFcompare (Prim2SF a) (Prim2SF b)) as [[| |]|];
    split; intros H; try reflexivity; try discriminate H; try lra; contradiction.
Qed.

(** A datum with a finite upper bound is neither NaN nor [+infinity]. *)
Lemma leb_upper (x b : float) :
  finite b -> PrimFloat.leb x b = true ->
  Prim2SF x <> S754_nan /\ Prim2SF x <> S754_infinity false.
Proof.
  unfold finite. intros Hb. rewrite leb_spec. unfold SFleb.
  destruct (Prim2SF x) as [sx | [|] | | sx mx ex];
    destruct (Prim2SF b) as [sb | sb | | sb mb eb]; try discriminate Hb;
    cbn [SFcompare]; intros H; try discriminate H; split; discriminate.
Qed.

Lemma leb_lower (a x : float) :
  finite a -> PrimFloat.leb a x = true ->
  Prim2SF x <> S754_nan /\ Prim2SF x <> S754_infinity true.
Proof.
  unfold finite. intros Ha. rewrite leb_spec. unfold SFleb.
  destruct (Prim2SF a) as [sa | sa | | sa ma ea]; try discriminate Ha;
    destruct (Prim2SF x) as [sx | [|] | | sx mx ex];
    cbn [SFcompare]; intros H; try discriminate H; split; discriminate.
Qed.

(** A number that tests between two finite ones is finite, and its value
    lies between theirs. *)
Theorem leb_between (a x b : float) :
  finite a -> finite b ->
  PrimFloat.leb a x = true -> PrimFloat.leb x b = true ->
  finite x /\ (F2R a <= F2R x <= F2R b)%R.
Proof.
  intros Ha Hb H1 H2.
  destruct (leb_upper x b Hb H2) as [Hn Hp].
  destruct (leb_lower a x Ha H1) as [_ Hm].
  assert (Hx : finite x).
  { unfold finite. destruct (Prim2SF x) as [s | [|] | | s m e];
      try reflexivity; congruence. }
  split; [assumption|].
  split; [apply (leb_finite a x) | apply (leb_finite x b)]; assumption.
Qed.

Lemma abs_value (x : float) :
  F2R (PrimFloat.abs x) = Rabs (F2R x) /\
  (finite (PrimFloat.abs x) <-> finite x).
Proof.
  unfold F2R, finite. rewrite abs_spec.
  destruct (Prim2SF x) as [s | s | | s m e]; cbn [SFabs SF2R SFfinite].
  - rewrite Rabs_R0. tauto.
  - rewrite Rabs_R0. tauto.
  - rewrite Rabs_R0. tauto.
  - fold (mag m e). pose proof (mag_pos m e).
    destruct s; [rewrite Rabs_Ropp|]; rewrite Rabs_pos_eq by lra; tauto.
Qed.

(** A number whose absolute value tests below a finite one is finite, and
    so bounded. *)
Theorem abs_leb (x b : float) :
  finite b -> PrimFloat.leb (PrimFloat.abs x) b = true ->
  finite x /\ (Rabs (F2R x) <= F2R b)%R.
Proof.
  intros Hb H.
  destruct (leb_upper _ b Hb H) as [Hn Hp].
  assert (Hx : finite (PrimFloat.abs x)).
  { unfold finite. revert Hn Hp. rewrite abs_spec.
    destruct (Prim2SF x) as [s | s | | s m e]; cbn [SFabs SFfinite];
      intros; try reflexivity; congruence. }
  destruct (abs_value x) as [Hv Hf].
  split; [apply Hf; assumption|].
  rewrite <- Hv. apply (leb_finite _ b); assumption.
Qed.

End Binary64.

(** ** Binary64 arithmetic: the ring's radius *)

(** The errors of the operations of [vertex] and [flat_dist], added up. *)

Section RingError.
Local Open Scope R_scope.

Lemma Rabs_le_inv (a b : R) : Rabs a <= b -> - b <= a <= b.
Proof. unfold Rabs. destruct (Rcase_abs a); lra. Qed.

Lemma u64_bound : 0 < u64 <= 2.3e-16.
Proof.
  unfold u64, bpow. simpl powerRZ. split; [apply Rinv_0_lt_compat; lra|].
  apply Rmult_le_reg_l with (2^52); [lra|]. rewrite Rinv_r by lra. lra.
Qed.

Lemma eta64_bound : 0 < eta64 <= 1e-30.
Proof.
  split; [apply bpow_pos|].
  apply Rle_trans with (bpow (-100)); [apply bpow_le; lia|].
  unfold bpow. simpl powerRZ.
  apply Rmult_le_reg_l with (2^100); [lra|]. rewrite Rinv_r by lra. lra.
Qed.

Lemma below_overflow (x : R) : x <= 1e30 -> x < bpow 1023.
Proof.
  intros H. apply Rle_lt_trans with (bpow 100).
  - rewrite bpow_IZR by lia.
    change (2 ^ 100)%Z with 1267650600228229401496703205376%Z. lra.
  - apply bpow_lt. lia.
Qed.

Lemma F2R_earth : finite (float_of_Z 6378137) /\ F2R (float_of_Z 6378137) = 6378137.
Proof. float_value (float_of_Z 6378137). split; [reflexivity | lra]. Qed.

Lemma F2R_180 : finite (float_of_Z 180) /\ F2R (float_of_Z 180) = 180.
Proof. float_value (float_of_Z 180). split; [reflexivity | lra]. Qed.

Lemma F2R_PI : finite float_PI /\ 3.14 <= F2R float_PI <= 3.15.
Proof. float_value float_PI. split; [reflexivity | lra]. Qed.

Lemma F2R_one : finite 1%float /\ F2R 1%float = 1.
Proof. float_value 1%float. split; [reflexivity | lra]. Qed.

Lemma Rabs_mul_le (a b A B : R) :
  Rabs a <= A -> Rabs b <= B -> Rabs (a * b) <= A * B.
Proof.
  intros Ha Hb. rewrite Rabs_mult.
  pose proof (Rabs_pos a). pose proof (Rabs_pos b). nra.
Qed.

Lemma Rabs_div_le (a b A L : R) :
  Rabs a <= A -> 0 < L <= b -> Rabs (a / b) <= A / L.
Proof.
  intros Ha [HL Hb]. unfold Rdiv. rewrite Rabs_mult.
  pose proof (Rabs_pos a).
  assert (0 < / b <= / L).
  { split; [apply Rinv_0_lt_compat; lra|]. apply Rinv_le_contravar; lra. }
  rewrite (Rabs_pos_eq (/ b)) by lra.
  apply Rmult_le_compat; lra.
Qed.

Lemma Rabs_error (z z' Z E : R) :
  Rabs z <= Z -> Rabs (z' - z) <= E -> Rabs z' <= Z + E.
Proof.
  intros Hz He. apply Rabs_le_inv in Hz, He. apply Rabs_le. lra.
Qed.

Lemma model_bound (z Z : R) :
  Rabs z <= Z -> u64 * Rabs z + eta64 <= 2.3e-16 * Z + 1e-30.
Proof.
  intros Hz. pose proof u64_bound. pose proof eta64_bound.
  pose proof (Rabs_pos z). nra.
Qed.

Lemma model_bound_pos (z : R) :
  0 <= z -> u64 * Rabs z + eta64 <= 2.3e-16 * z + 1e-30.
Proof.
  intros Hz. apply model_bound. rewrite Rabs_pos_eq; lra.
Qed.

(** One binary64 operation whose exact result is at most [Z] in size: the
    computed result is finite, its error and its size are bounded in terms
    of [Z]. *)
Lemma mul_step (a b : float) (Z : R) :
  finite a -> finite b -> Rabs (F2R a * F2R b) <= Z -> Z <= 1e30 ->
  finite (a * b) /\
  Rabs (F2R (a * b) - F2R a * F2R b) <= 2.3e-16 * Z + 1e-30 /\
  Rabs (F2R (a * b)) <= Z + (2.3e-16 * Z + 1e-30).
Proof.
  intros Fa Fb Hz Hov.
  destruct (mul_error a b Fa Fb) as [Ff He].
  { apply below_overflow. lra. }
  pose proof (model_bound _ _ Hz) as Hm.
  split; [assumption|]. split; [lra|].
  apply Rabs_error with (F2R a * F2R b); lra.
Qed.

Lemma div_step (a b : float) (Z : R) :
  finite a -> finite b -> F2R b <> 0 -> Rabs (F2R a / F2R b) <= Z ->
  Z <= 1e30 ->
  finite (a / b) /\
  Rabs (F2R (a / b) - F2R a / F2R b) <= 2.3e-16 * Z + 1e-30 /\
  Rabs (F2R (a / b)) <= Z + (2.3e-16 * Z + 1e-30).
Proof.
  intros Fa Fb Hb Hz Hov.
  destruct (div_error a b Fa Fb Hb) as [Ff He].
  { apply below_overflow. lra. }
  pose proof (model_bound _ _ Hz) as Hm.
  split; [assumption|]. split; [lra|].
  apply Rabs_error with (F2R a / F2R b); lra.
Qed.

Lemma add_step (a b : float) (Z : R) :
  finite a -> finite b -> Rabs (F2R a + F2R b) <= Z -> Z <= 1e30 ->
  finite (a + b) /\
  Rabs (F2R (a + b) - (F2R a + F2R b)) <= 2.3e-16 * Z + 1e-30 /\
  Rabs (F2R (a + b)) <= Z + (2.3e-16 * Z + 1e-30).
Proof.
  intros Fa Fb Hz Hov.
  destruct (add_error a b Fa Fb) as [Ff He].
  { apply below_overflow. lra. }
  pose proof (model_bound _ _ Hz) as Hm.
  split; [assumption|]. split; [lra|].
  apply Rabs_error with (F2R a + F2R b); lra.
Qed.

Lemma sub_step (a b : float) (Z : R) :
  finite a -> finite b -> Rabs (F2R a - F2R b) <= Z -> Z <= 1e30 ->
  finite (a - b) /\
  Rabs (F2R (a - b) - (F2R a - F2R b)) <= 2.3e-16 * Z + 1e-30 /\
  Rabs (F2R (a - b)) <= Z + (2.3e-16 * Z + 1e-30).
Proof.
  intros Fa Fb Hz Hov.
  destruct (sub_error a b Fa Fb) as [Ff He].
  { apply below_overflow. lra. }
  pose proof (model_bound _ _ Hz) as Hm.
  split; [assumption|]. split; [lra|].
  apply Rabs_error with (F2R a - F2R b); lra.
Qed.

(** The offsets in metres survive the trip to degrees and back: [x] metres
    over a scale [A], to degrees, added to the coordinate [b], taken off
    again and turned back into metres.  [y] is [|x| / A]. *)
Lemma roundtrip_real (x A P b t1 t2 d v a1 a2 a3 D y : R) :
  0 < A <= 6378138 -> 3.14 <= P <= 3.15 ->
  0 <= y -> y * A = Rabs x ->
  Rabs (t1 - x / A) <= 2.3e-16 * y + 1e-30 ->
  Rabs (t2 - t1 * 180) <= 4.15e-14 * y + 2e-30 ->
  Rabs (d - t2 / P) <= 1.32e-14 * y + 2e-30 ->
  Rabs (v - (b + d)) <= 1.32e-14 * y + 8.3e-14 ->
  Rabs (a1 - (v - b)) <= 1.32e-14 * y + 1e-28 ->
  Rabs (a2 - a1 * P) <= 4.16e-14 * y + 1e-27 ->
  Rabs (a3 - a2 / 180) <= 2.32e-16 * y + 1e-29 ->
  Rabs (D - a3 * A) <= 2.32e-16 * Rabs x + 1e-23 ->
  Rabs (D - x) <= 1.9e-15 * Rabs x + 9.4e-9.
Proof.
  intros HA HP Hy HyA H4 H5 H6 H7 H8 H9 H10 H11.
  set (e4 := t1 - x / A) in *. set (e5 := t2 - t1 * 180) in *.
  set (e6 := d - t2 / P) in *. set (e7 := v - (b + d)) in *.
  set (e8 := a1 - (v - b)) in *. set (e9 := a2 - a1 * P) in *.
  set (e10 := a3 - a2 / 180) in *. set (e11 := D - a3 * A) in *.
  set (q := e6 + e7 + e8).
  assert (Hs : Rabs q <= 3.96e-14 * y + 8.4e-14).
  { apply Rabs_le_inv in H6, H7, H8. apply Rabs_le. unfold q. lra. }
  assert (Hq : Rabs (q * P) <= (3.96e-14 * y + 8.4e-14) * 3.15).
  { apply Rabs_mul_le; [assumption | rewrite Rabs_pos_eq; lra]. }
  set (w := e4 + e5 / 180 + q * P / 180 + e9 / 180 + e10).
  assert (Hid : D - x = A * w + e11).
  { unfold w, q, e4, e5, e6, e7, e8, e9, e10, e11. field. lra. }
  assert (Hw : Rabs w <= 1.62e-15 * y + 1.472e-15).
  { apply Rabs_le_inv in H4, H5, Hq, H9, H10. apply Rabs_le.
    unfold w. clearbody e4 e5 e9 e10 q. lra. }
  assert (HAw : Rabs (A * w) <= 1.62e-15 * Rabs x + 1.472e-15 * A).
  { rewrite Rabs_mult, (Rabs_pos_eq A) by lra.
    rewrite <- HyA.
    replace (1.62e-15 * (y * A) + 1.472e-15 * A)
      with (A * (1.62e-15 * y + 1.472e-15)) by ring.
    apply Rmult_le_compat_l; lra. }
  rewrite Hid. pose proof (Rabs_pos x).
  apply Rabs_le_inv in HAw, H11. apply Rabs_le. lra.
Qed.

Lemma Rabs_scaled (a A Z : R) :
  0 < A -> Rabs a <= Z -> Rabs (a * A) <= Z * A.
Proof.
  intros HA Ha. rewrite Rabs_mult, (Rabs_pos_eq A) by lra.
  apply Rmult_le_compat_r; lra.
Qed.

Lemma roundtrip_float (xf Af bf : float) :
  finite xf -> finite Af -> finite bf ->
  0 < F2R Af <= 6378138 ->
  Rabs (F2R xf) <= 1e20 * F2R Af -> Rabs (F2R xf) <= 1e20 ->
  Rabs (F2R bf) <= 360 ->
  finite (metres_back (bf + degrees_of xf Af) bf Af) /\
  Rabs (F2R (metres_back (bf + degrees_of xf Af) bf Af) - F2R xf)
  <= 1.9e-15 * Rabs (F2R xf) + 9.4e-9.
Proof.
  intros Fx FA Fb HA Hx Hx' Hb.
  destruct F2R_180 as [F180 V180]. destruct F2R_PI as [FPI VPI].
  unfold metres_back, degrees_of.
  set (y := Rabs (F2R xf) / F2R Af).
  assert (HyA : y * F2R Af = Rabs (F2R xf)) by (unfold y; field; lra).
  assert (Hy : 0 <= y <= 1e20).
  { pose proof (Rabs_pos (F2R xf)). split.
    - unfold y. apply Rmult_le_pos; [assumption|].
      apply Rlt_le, Rinv_0_lt_compat; lra.
    - apply Rmult_le_reg_r with (F2R Af); [lra|]. rewrite HyA. lra. }
  assert (Hq : Rabs (F2R xf / F2R Af) <= y).
  { unfold y, Rdiv. rewrite Rabs_mult, (Rabs_pos_eq (/ F2R Af)); [lra|].
    apply Rlt_le, Rinv_0_lt_compat; lra. }
  destruct (div_step xf Af y Fx FA ltac:(lra) Hq ltac:(lra))
    as (F1 & E1 & M1).
  set (t1 := (xf / Af)%float) in *.
  destruct (mul_step t1 (float_of_Z 180) (180.0002 * y + 2e-28) F1 F180)
    as (F2 & E2 & M2).
  { eapply Rle_trans;
      [apply Rabs_mul_le with (B := 180); [exact M1 | rewrite V180, Rabs_pos_eq; lra] | lra]. }
  { lra. }
  set (t2 := (t1 * float_of_Z 180)%float) in *.
  destruct (div_step t2 float_PI (57.33 * y + 1e-28) F2 FPI ltac:(lra))
    as (F3 & E3 & M3).
  { eapply Rle_trans;
      [apply Rabs_div_le with (L := 3.14); [exact M2 | lra] | lra]. }
  { lra. }
  set (d := (t2 / float_PI)%float) in *.
  destruct (add_step bf d (360 + 57.34 * y + 2e-28) Fb F3) as (F4 & E4 & M4).
  { eapply Rle_trans; [apply Rabs_triang | lra]. }
  { lra. }
  set (v := (bf + d)%float) in *.
  destruct (sub_step v bf (57.35 * y + 8.4e-14) F4 Fb) as (F5 & E5 & M5).
  { apply Rabs_le_inv in E4, M3. apply Rabs_le. lra. }
  { lra. }
  set (a1 := (v - bf)%float) in *.
  destruct (mul_step a1 float_PI (180.7 * y + 2.7e-13) F5 FPI)
    as (F6 & E6 & M6).
  { eapply Rle_trans;
      [apply Rabs_mul_le with (B := 3.15); [exact M5 | rewrite Rabs_pos_eq; lra] | lra]. }
  { lra. }
  set (a2 := (a1 * float_PI)%float) in *.
  destruct (div_step a2 (float_of_Z 180) (1.0045 * y + 1.6e-15) F6 F180
              ltac:(rewrite V180; lra)) as (F7 & E7 & M7).
  { eapply Rle_trans;
      [apply Rabs_div_le with (L := 180); [exact M6 | rewrite V180; lra] | lra]. }
  { lra. }
  set (a3 := (a2 / float_of_Z 180)%float) in *.
  destruct (mul_step a3 Af (1.005 * Rabs (F2R xf) + 1.1e-8) F7 FA)
    as (F8 & E8 & M8).
  { eapply Rle_trans; [apply Rabs_scaled; [lra | exact M7]|].
    rewrite <- HyA. nra. }
  { lra. }
  split; [assumption|].
  rewrite V180 in *. pose proof (Rabs_pos (F2R xf)).
  apply (roundtrip_real (F2R xf) (F2R Af) (F2R float_PI) (F2R bf)
           (F2R t1) (F2R t2) (F2R d) (F2R v) (F2R a1) (F2R a2) (F2R a3) _ y);
    try assumption; lra.
Qed.

(** The squared length of the computed offsets, against [r^2]. *)
Lemma squared_length_real (r c s X Y : R) :
  0 < r ->
  Rabs c <= 1 -> Rabs s <= 1 ->
  Rabs (c * c + s * s - 1) <= 1e-9 ->
  Rabs (X - r * c) <= 1e-8 * r -> Rabs (Y - r * s) <= 1e-8 * r ->
  r * r * (1 - 4.2e-8) <= X * X + Y * Y <= r * r * (1 + 4.2e-8).
Proof.
  intros Hr Hc Hs Hp HX HY.
  apply Rabs_le_inv in Hc, Hs, Hp, HX, HY.
  set (ux := X / r - c). set (uy := Y / r - s).
  assert (Hux : - 1e-8 <= ux <= 1e-8).
  { assert (Hx : X - r * c = r * ux) by (unfold ux; field; lra).
    rewrite Hx in HX. clearbody ux. split; nra. }
  assert (Huy : - 1e-8 <= uy <= 1e-8).
  { assert (Hy : Y - r * s = r * uy) by (unfold uy; field; lra).
    rewrite Hy in HY. clearbody uy. split; nra. }
  set (W := (c + ux) * (c + ux) + (s + uy) * (s + uy)).
  assert (HXY : X * X + Y * Y = r * r * W)
    by (unfold W, ux, uy; field; lra).
  assert (H1 : - 1e-8 <= c * ux <= 1e-8) by (clearbody ux; nra).
  assert (H2 : - 1e-8 <= s * uy <= 1e-8) by (clearbody uy; nra).
  assert (H3 : 0 <= ux * ux <= 1e-15) by (clearbody ux; nra).
  assert (H4 : 0 <= uy * uy <= 1e-15) by (clearbody uy; nra).
  assert (HW : 1 - 4.2e-8 <= W <= 1 + 4.2e-8).
  { replace W with (c * c + s * s + 2 * (c * ux) + 2 * (s * uy)
                    + ux * ux + uy * uy) by (unfold W; ring).
    lra. }
  assert (Hrr : 0 < r * r) by nra.
  rewrite HXY. split; apply Rmult_le_compat_l; lra.
Qed.

(** The length [sqrt (DX*DX + DY*DY)], computed in binary64. *)
Lemma length_float (DXf DYf : float) (r c s : R) :
  finite DXf -> finite DYf ->
  1 <= r <= 1000000000 ->
  Rabs c <= 1 -> Rabs s <= 1 ->
  Rabs (c * c + s * s - 1) <= 1e-9 ->
  Rabs (F2R DXf - r * c) <= 1e-8 * r -> Rabs (F2R DYf - r * s) <= 1e-8 * r ->
  finite (PrimFloat.sqrt (DXf * DXf + DYf * DYf)) /\
  Rabs (F2R (PrimFloat.sqrt (DXf * DXf + DYf * DYf)) - r) <= 3e-8 * r.
Proof.
  intros FX FY Hr Hc Hs Hp HX HY.
  pose proof (squared_length_real r c s _ _ ltac:(lra) Hc Hs Hp HX HY) as HT.
  set (X := F2R DXf) in *. set (Y := F2R DYf) in *.
  assert (Hrr : 1 <= r * r <= 1e18) by nra.
  assert (HXX : 0 <= X * X) by nra.
  assert (HYY : 0 <= Y * Y) by nra.
  destruct (mul_error DXf DXf FX FX) as [F1 E1].
  { apply below_overflow. fold X. rewrite Rabs_pos_eq; lra. }
  destruct (mul_error DYf DYf FY FY) as [F2 E2].
  { apply below_overflow. fold Y. rewrite Rabs_pos_eq; lra. }
  fold X in E1. fold Y in E2.
  pose proof (model_bound_pos (X * X) ltac:(lra)) as B1.
  pose proof (model_bound_pos (Y * Y) ltac:(lra)) as B2.
  set (S1 := F2R (DXf * DXf)) in *. set (S2 := F2R (DYf * DYf)) in *.
  set (X2 := X * X) in *. set (Y2 := Y * Y) in *. set (R2 := r * r) in *.
  apply Rabs_le_inv in E1, E2.
  assert (HS12 : 0 <= S1 + S2 <= 3e18) by lra.
  destruct (add_error (DXf * DXf) (DYf * DYf) F1 F2) as [F3 E3].
  { apply below_overflow. fold S1 S2. rewrite Rabs_pos_eq; lra. }
  fold S1 S2 in E3.
  pose proof (model_bound_pos (S1 + S2) ltac:(lra)) as B3.
  set (S := F2R (DXf * DXf + DYf * DYf)) in *.
  apply Rabs_le_inv in E3.
  assert (HS : R2 * (1 - 4.3e-8) <= S <= R2 * (1 + 4.3e-8)) by lra.
  assert (HS0 : 0 <= S) by lra.
  assert (Hlo : r * (1 - 2.2e-8) <= sqrt S).
  { rewrite <- (sqrt_square (r * (1 - 2.2e-8))) by nra.
    apply sqrt_le_1_alt.
    replace (r * (1 - 2.2e-8) * (r * (1 - 2.2e-8)))
      with (R2 * ((1 - 2.2e-8) * (1 - 2.2e-8))) by (unfold R2; ring).
    eapply Rle_trans; [|apply HS].
    apply Rmult_le_compat_l; lra. }
  assert (Hhi : sqrt S <= r * (1 + 2.2e-8)).
  { rewrite <- (sqrt_square (r * (1 + 2.2e-8))) by nra.
    apply sqrt_le_1_alt.
    replace (r * (1 + 2.2e-8) * (r * (1 + 2.2e-8)))
      with (R2 * ((1 + 2.2e-8) * (1 + 2.2e-8))) by (unfold R2; ring).
    eapply Rle_trans; [apply HS|].
    apply Rmult_le_compat_l; lra. }
  destruct (sqrt_error (DXf * DXf + DYf * DYf) F3) as [F4 E4].
  { fold S. assumption. }
  { apply below_overflow. fold S. lra. }
  fold S in E4.
  split; [assumption|].
  assert (Hq0 : 0 <= sqrt S) by apply sqrt_pos.
  pose proof u64_bound. pose proof eta64_bound.
  assert (Hm : u64 * sqrt S <= 2.3e-16 * sqrt S) by nra.
  apply Rabs_le_inv in E4. apply Rabs_le. lra.
Qed.

(** The tolerance test on a computed length close to [r]. *)
Lemma tolerance_float (Qf rf : float) :
  finite Qf -> finite rf ->
  1 <= F2R rf <= 1000000000 ->
  Rabs (F2R Qf - F2R rf) <= 3e-8 * F2R rf ->
  PrimFloat.leb (PrimFloat.abs (Qf - rf)) (0x1p-20 * rf)%float = true.
Proof.
  intros FQ Fr Hr HQ.
  assert (Ftol : finite 0x1p-20%float /\ F2R 0x1p-20%float = / 1048576).
  { float_value 0x1p-20%float. split; [reflexivity | lra]. }
  destruct Ftol as [Ft Vt].
  destruct (sub_error Qf rf FQ Fr) as [F1 E1].
  { apply below_overflow. eapply Rle_trans; [exact HQ | lra]. }
  destruct (mul_error 0x1p-20%float rf Ft Fr) as [F2 E2].
  { apply below_overflow. rewrite Vt, Rabs_pos_eq; lra. }
  destruct (abs_value (Qf - rf)) as [Va Fa].
  apply (leb_finite _ _ (proj2 Fa F1) F2).
  rewrite Va. rewrite Vt in E2.
  pose proof (model_bound _ _ HQ) as B1.
  assert (HM : Rabs (/ 1048576 * F2R rf) <= / 1048576 * F2R rf)
    by (rewrite Rabs_pos_eq; lra).
  pose proof (model_bound _ _ HM) as B2.
  apply Rabs_le_inv in E1, E2, HQ.
  apply Rabs_le. lra.
Qed.

Lemma F2R_billion :
  finite (float_of_Z 1000000000) /\ F2R (float_of_Z 1000000000) = 1000000000.
Proof. float_value (float_of_Z 1000000000). split; [reflexivity | lra]. Qed.

Lemma F2R_360 : finite (float_of_Z 360) /\ F2R (float_of_Z 360) = 360.
Proof. float_value (float_of_Z 360). split; [reflexivity | lra]. Qed.

Lemma F2R_90 : finite (float_of_Z 90) /\ F2R (float_of_Z 90) = 90.
Proof. float_value (float_of_Z 90). split; [reflexivity | lra]. Qed.

Lemma F2R_cos_floor :
  finite 0x1p-54%float /\ F2R 0x1p-54%float = / 18014398509481984.
Proof. float_value 0x1p-54%float. split; [reflexivity | lra]. Qed.

Lemma F2R_check : finite 0x1p-30%float /\ F2R 0x1p-30%float = / 1073741824.
Proof. float_value 0x1p-30%float. split; [reflexivity | lra]. Qed.

(** The binary64 test [|c*c + s*s - 1| <= 2^-30] on a cosine and sine pair,
    read over the reals. *)
Lemma pythagoras_float (cf sf : float) :
  PrimFloat.leb (PrimFloat.abs cf) 1 = true ->
  PrimFloat.leb (PrimFloat.abs sf) 1 = true ->
  PrimFloat.leb (PrimFloat.abs (cf * cf + sf * sf - 1)) 0x1p-30 = true ->
  finite cf /\ finite sf /\
  Rabs (F2R cf) <= 1 /\ Rabs (F2R sf) <= 1 /\
  Rabs (F2R cf * F2R cf + F2R sf * F2R sf - 1) <= 1e-9.
Proof.
  intros Hc Hs Hp.
  destruct F2R_one as [F1 V1]. destruct F2R_check as [Fk Vk].
  destruct (abs_leb cf 1%float F1 Hc) as [Fc Bc].
  destruct (abs_leb sf 1%float F1 Hs) as [Fs Bs].
  destruct (abs_leb _ _ Fk Hp) as [_ Bp].
  rewrite V1 in Bc, Bs. rewrite Vk in Bp.
  destruct (mul_step cf cf 1 Fc Fc) as (F2 & E2 & M2).
  { replace 1 with (1 * 1) by ring. now apply Rabs_mul_le. }
  { lra. }
  destruct (mul_step sf sf 1 Fs Fs) as (F3 & E3 & M3).
  { replace 1 with (1 * 1) by ring. now apply Rabs_mul_le. }
  { lra. }
  destruct (add_step (cf * cf) (sf * sf) 2.1 F2 F3) as (F4 & E4 & M4).
  { eapply Rle_trans; [apply Rabs_triang | lra]. }
  { lra. }
  destruct (sub_step (cf * cf + sf * sf) 1 3.2 F4 F1) as (F5 & E5 & M5).
  { rewrite V1. apply Rabs_le_inv in M4. apply Rabs_le. lra. }
  { lra. }
  rewrite V1 in E5.
  repeat (split; [assumption|]).
  apply Rabs_le_inv in E2, E3, E4, E5, Bp. apply Rabs_le. lra.
Qed.

(** A computed offset [r * cf], taken to degrees and back, against the
    exact product. *)
Lemma offset_float (rf cf Af bf : float) :
  finite rf -> finite cf -> finite Af -> finite bf ->
  1 <= F2R rf <= 1000000000 -> Rabs (F2R cf) <= 1 ->
  3e-10 <= F2R Af <= 6378138 -> Rabs (F2R bf) <= 360 ->
  finite (metres_back (bf + degrees_of (rf * cf) Af) bf Af) /\
  Rabs (F2R (metres_back (bf + degrees_of (rf * cf) Af) bf Af)
        - F2R rf * F2R cf) <= 1e-8 * F2R rf.
Proof.
  intros Fr Fc FA Fb Hr Hc HA Hb.
  destruct (mul_step rf cf (F2R rf) Fr Fc) as (Fx & Ex & Mx).
  { replace (F2R rf) with (F2R rf * 1) at 2 by ring.
    apply Rabs_mul_le; [rewrite Rabs_pos_eq; lra | assumption]. }
  { lra. }
  destruct (roundtrip_float (rf * cf) Af bf Fx FA Fb) as [Fd Ed];
    try lra.
  split; [assumption|].
  apply Rabs_le_inv in Ex, Ed. apply Rabs_le.
  set (x := F2R (rf * cf)) in *. clearbody x.
  set (ax := Rabs x) in *. clearbody ax. lra.
Qed.

(** The ring's radius in binary64, on the float expressions of [vertex] and
    of [flat_dist]: [cf] and [sf] are the cosine and sine of the vertex's
    angle, [g] the cosine of the latitude. *)
Lemma ring_distance_float (cf sf g lon lat r : float) :
  PrimFloat.leb 1 r = true ->
  PrimFloat.leb r (float_of_Z 1000000000) = true ->
  PrimFloat.leb (PrimFloat.abs lon) (float_of_Z 360) = true ->
  PrimFloat.leb (PrimFloat.abs lat) (float_of_Z 90) = true ->
  PrimFloat.leb 0x1p-54 g = true -> PrimFloat.leb g 1 = true ->
  PrimFloat.leb (PrimFloat.abs cf) 1 = true ->
  PrimFloat.leb (PrimFloat.abs sf) 1 = true ->
  PrimFloat.leb (PrimFloat.abs (cf * cf + sf * sf - 1)) 0x1p-30 = true ->
  let A := (float_of_Z 6378137 * g)%float in
  let E := float_of_Z 6378137 in
  let dx := metres_back (lon + degrees_of (r * cf) A) lon A in
  let dy := metres_back (lat + degrees_of (r * sf) E) lat E in
  PrimFloat.leb (PrimFloat.abs (PrimFloat.sqrt (dx * dx + dy * dy) - r))
                (0x1p-20 * r)%float = true.
Proof.
  intros Hr1 Hr2 Hlon Hlat Hg1 Hg2 Hc Hs Hp A E dx dy.
  destruct F2R_one as [F1 V1]. destruct F2R_billion as [FM VM].
  destruct F2R_360 as [F360 V360]. destruct F2R_90 as [F90 V90].
  destruct F2R_cos_floor as [F16 V16]. destruct F2R_earth as [FE VE].
  destruct (leb_between 1%float r _ F1 FM Hr1 Hr2) as [Fr Br].
  destruct (leb_between 0x1p-54%float g 1%float F16 F1 Hg1 Hg2) as [Fg Bg].
  destruct (abs_leb lon _ F360 Hlon) as [Flon Blon].
  destruct (abs_leb lat _ F90 Hlat) as [Flat Blat].
  destruct (pythagoras_float cf sf Hc Hs Hp) as (Fc & Fs & Bc & Bs & Bp).
  rewrite V1, ?VM in Br. rewrite V16, V1 in Bg. rewrite V360 in Blon.
  rewrite V90 in Blat.
  (* the scale of a degree of longitude *)
  destruct (mul_step (float_of_Z 6378137) g (6378137 * F2R g) FE Fg)
    as (FA & EA & _).
  { rewrite VE, Rabs_pos_eq; [lra|]. apply Rmult_le_pos; lra. }
  { lra. }
  fold A in FA, EA. rewrite VE in EA.
  assert (BA : 3e-10 <= F2R A <= 6378138).
  { apply Rabs_le_inv in EA. lra. }
  assert (BE : 3e-10 <= F2R E <= 6378138) by (unfold E; rewrite VE; lra).
  destruct (offset_float r cf A lon Fr Fc FA Flon Br Bc BA Blon)
    as [Fdx Edx].
  destruct (offset_float r sf E lat Fr Fs FE Flat Br Bs BE ltac:(lra))
    as [Fdy Edy].
  fold dx in Fdx, Edx. fold dy in Fdy, Edy.
  destruct (length_float dx dy (F2R r) (F2R cf) (F2R sf) Fdx Fdy Br Bc Bs Bp
              Edx Edy) as [FQ EQ].
  apply tolerance_float; assumption.
Qed.

Lemma F2R_zero : finite 0%float /\ F2R 0%float = 0.
Proof. float_value 0%float. split; [reflexivity | lra]. Qed.

(** The offset [r * cf] in metres, in degrees over the scale [Af], added to
    the coordinate [bf]: the result stays within the band that the exact
    quotient gives, up to rounding. *)
Lemma degrees_band_float (rf cf Af bf : float) :
  finite rf -> finite cf -> finite Af -> finite bf ->
  0 <= F2R rf <= 1000000000 -> Rabs (F2R cf) <= 1 ->
  3e-10 <= F2R Af <= 6378138 -> Rabs (F2R bf) <= 360 ->
  finite (bf + degrees_of (rf * cf) Af) /\
  Rabs (F2R (bf + degrees_of (rf * cf) Af) - F2R bf)
  <= F2R rf / F2R Af * 180 / F2R float_PI * (1 + 1.5e-15) + 1e-13.
Proof.
  intros Fr Fc FA Fb Hr Hc HA Hb.
  destruct F2R_180 as [F180 V180]. destruct F2R_PI as [FPI VPI].
  unfold degrees_of.
  set (r := F2R rf) in *. set (A := F2R Af) in *. set (P := F2R float_PI) in *.
  assert (HiA : 0 < / A <= 3.4e9).
  { split; [apply Rinv_0_lt_compat; lra|].
    apply Rmult_le_reg_l with A; [lra|]. rewrite Rinv_r by lra. nra. }
  assert (HiP : 0 < / P <= / 3.14).
  { split; [apply Rinv_0_lt_compat; lra|]. apply Rinv_le_contravar; lra. }
  set (rho := r * / A).
  assert (Hrho : 0 <= rho <= 3.4e18) by (unfold rho; nra).
  set (z := rho * 180 * / P).
  assert (Hz : 0 <= z <= 2e20).
  { unfold z. assert (0 <= rho * 180 <= 6.12e20) by lra. nra. }
  assert (Hgoal : r / A * 180 / P = z) by (unfold z, rho; field; lra).
  rewrite Hgoal.
  (* the offset in metres *)
  destruct (mul_step rf cf r Fr Fc) as (Fx & Ex & Mx).
  { fold r. replace r with (r * 1) at 2 by ring.
    apply Rabs_mul_le; [rewrite Rabs_pos_eq; lra | assumption]. }
  { lra. }
  set (x := (rf * cf)%float) in *.
  (* over the scale *)
  destruct (div_step x Af (rho * (1 + 2.3e-16) + 4e-21) Fx FA)
    as (F1 & E1 & M1).
  { fold A. lra. }
  { fold A. unfold Rdiv. rewrite Rabs_mult, (Rabs_pos_eq (/ A)) by lra.
    apply Rle_trans with ((r + (2.3e-16 * r + 1e-30)) * / A).
    - apply Rmult_le_compat_r; lra.
    - unfold rho. nra. }
  { lra. }
  set (t1 := (x / Af)%float) in *.
  destruct (mul_step t1 (float_of_Z 180)
              (180 * (rho * (1 + 4.7e-16) + 5e-21)) F1 F180)
    as (F2 & E2 & M2).
  { rewrite V180, Rabs_mult, (Rabs_pos_eq 180) by lra. lra. }
  { lra. }
  set (t2 := (t1 * float_of_Z 180)%float) in *.
  destruct (div_step t2 float_PI (z * (1 + 7.1e-16) + 4e-19) F2 FPI)
    as (F3 & E3 & M3).
  { fold P. lra. }
  { fold P. unfold Rdiv. rewrite Rabs_mult, (Rabs_pos_eq (/ P)) by lra.
    apply Rle_trans with ((180 * rho * (1 + 7.1e-16) + 1e-18) * / P).
    - apply Rmult_le_compat_r; lra.
    - replace ((180 * rho * (1 + 7.1e-16) + 1e-18) * / P)
        with (z * (1 + 7.1e-16) + 1e-18 * / P) by (unfold z; ring).
      lra. }
  { lra. }
  set (d := (t2 / float_PI)%float) in *.
  destruct (add_step bf d (360 + (z * (1 + 9.5e-16) + 5e-19)) Fb F3)
    as (F4 & E4 & M4).
  { eapply Rle_trans; [apply Rabs_triang | lra]. }
  { lra. }
  split; [assumption|].
  apply Rabs_le_inv in E4, M3. apply Rabs_le. lra.
Qed.

(** The bounding box of a vertex in binary64, on the float expressions of
    [vertex]: [cf] and [sf] are the cosine and sine of the vertex's angle,
    [g] the cosine of the latitude. *)
Lemma vertex_band_float (cf sf g lon lat r : float) :
  PrimFloat.leb 0 r = true ->
  PrimFloat.leb r (float_of_Z 1000000000) = true ->
  PrimFloat.leb (PrimFloat.abs lon) (float_of_Z 360) = true ->
  PrimFloat.leb (PrimFloat.abs lat) (float_of_Z 90) = true ->
  PrimFloat.leb 0x1p-54 g = true -> PrimFloat.leb g 1 = true ->
  PrimFloat.leb (PrimFloat.abs cf) 1 = true ->
  PrimFloat.leb (PrimFloat.abs sf) 1 = true ->
  let vlon := (lon + degrees_of (r * cf) (float_of_Z 6378137 * g))%float in
  let vlat := (lat + degrees_of (r * sf) (float_of_Z 6378137))%float in
  finite vlon /\ finite vlat /\
  Rabs (F2R vlat - F2R lat)
  <= F2R r / 6378137 * 180 / F2R float_PI * (1 + 2e-15) + 1e-13 /\
  Rabs (F2R vlon - F2R lon)
  <= F2R r / (6378137 * F2R g) * 180 / F2R float_PI * (1 + 2e-15) + 1e-13.
Proof.
  intros Hr1 Hr2 Hlon Hlat Hg1 Hg2 Hc Hs vlon vlat.
  destruct F2R_one as [F1 V1]. destruct F2R_billion as [FM VM].
  destruct F2R_360 as [F360 V360]. destruct F2R_90 as [F90 V90].
  destruct F2R_cos_floor as [F16 V16]. destruct F2R_earth as [FE VE].
  destruct F2R_zero as [F0 V0]. destruct F2R_PI as [FPI VPI].
  destruct (leb_between 0%float r _ F0 FM Hr1 Hr2) as [Fr Br].
  destruct (leb_between 0x1p-54%float g 1%float F16 F1 Hg1 Hg2) as [Fg Bg].
  destruct (abs_leb lon _ F360 Hlon) as [Flon Blon].
  destruct (abs_leb lat _ F90 Hlat) as [Flat Blat].
  destruct (abs_leb cf _ F1 Hc) as [Fc Bc].
  destruct (abs_leb sf _ F1 Hs) as [Fs Bs].
  rewrite V0, ?VM in Br. rewrite V16, V1 in Bg. rewrite V360 in Blon.
  rewrite V90 in Blat. rewrite V1 in Bc, Bs.
  destruct (mul_step (float_of_Z 6378137) g (6378137 * F2R g) FE Fg)
    as (FA & EA & _).
  { rewrite VE, Rabs_pos_eq; [lra|]. apply Rmult_le_pos; lra. }
  { lra. }
  rewrite VE in EA.
  set (A := (float_of_Z 6378137 * g)%float) in *.
  assert (BA : 3e-10 <= F2R A <= 6378138).
  { apply Rabs_le_inv in EA. lra. }
  destruct (degrees_band_float r cf A lon Fr Fc FA Flon Br Bc BA Blon)
    as [Fvlon Evlon].
  destruct (degrees_band_float r sf (float_of_Z 6378137) lat Fr Fs FE Flat Br
              Bs ltac:(rewrite VE; lra) ltac:(lra)) as [Fvlat Evlat].
  fold vlon in Fvlon, Evlon. fold vlat in Fvlat, Evlat.
  rewrite VE in Evlat.
  repeat (split; [assumption|]).
  split.
  - set (z := F2R r / 6378137 * 180 / F2R float_PI) in *.
    assert (0 <= z).
    { unfold z, Rdiv. repeat apply Rmult_le_pos; try lra.
      apply Rlt_le, Rinv_0_lt_compat; lra. }
    lra.
  - set (A0 := 6378137 * F2R g) in *.
    assert (HA0 : 3.5e-10 <= A0) by (unfold A0; lra).
    assert (HAA : A0 <= (1 + 3e-16) * F2R A).
    { apply Rabs_le_inv in EA. lra. }
    set (m := F2R r * 180 / F2R float_PI).
    assert (Hm : 0 <= m).
    { unfold m, Rdiv. repeat apply Rmult_le_pos; try lra.
      apply Rlt_le, Rinv_0_lt_compat; lra. }
    assert (Hinv : / F2R A <= (1 + 3e-16) * / A0).
    { apply Rmult_le_reg_l with (F2R A); [lra|]. rewrite Rinv_r by lra.
      apply Rmult_le_reg_l with A0; [lra|].
      replace (A0 * (F2R A * ((1 + 3e-16) * / A0)))
        with ((1 + 3e-16) * F2R A * (A0 * / A0)) by ring.
      rewrite Rinv_r by lra. lra. }
    replace (F2R r / F2R A * 180 / F2R float_PI) with (m * / F2R A) in Evlon
      by (unfold m; field; lra).
    replace (F2R r / A0 * 180 / F2R float_PI) with (m * / A0)
      by (unfold m; field; lra).
    assert (Hz : 0 <= m * / A0).
    { apply Rmult_le_pos; [assumption|]. apply Rlt_le, Rinv_0_lt_compat; lra. }
    assert (Hle : m * / F2R A <= (1 + 3e-16) * (m * / A0)).
    { replace ((1 + 3e-16) * (m * / A0)) with (m * ((1 + 3e-16) * / A0)) by ring.
      apply Rmult_le_compat_l; assumption. }
    set (z := m * / A0) in *. set (z' := m * / F2R A) in *. lra.
Qed.

End RingError.

Set Implicit Arguments.

(** ** Binary64 arithmetic: a tiny radius is rounded away *)

(** Whatever [Math.cos] and [Math.sin] the engine has, as long as they take
    the two values ECMAScript fixes at [0]: the first vertex of the ring of
    radius [1e-12] around [(1, 0)] is the centre itself, because
    [1 + 8.98e-18] rounds to [1]. *)
Lemma first_vertex_absorbed (fcos fsin : float -> float) :
  fcos 0%float = 1%float -> fsin 0%float = 0%float ->
  nth_error (ring_of (circle (N := Float64 fcos fsin) (1, 0)%float tiny_radius 3)) 0
  = Some (Pt 1%float 0%float).
Proof.
  intros Hcos Hsin.
  unfold ring_of, circle. cbn [geometry coordinates hd].
  rewrite (circle_coords_nth (N := Float64 fcos fsin)) by (simpl; lia).
  unfold vertex, R_earth.
  cbv [lit num_add num_sub num_mul num_div Math_cos Math_sin Math_sqrt
       Math_PI Float64 Z.of_nat].
  replace (float_of_Z 0 / float_of_Z 3 * float_of_Z 2 * float_PI)%float
    with 0%float by (vm_compute; reflexivity).
  replace (0 * float_PI / float_of_Z 180)%float
    with 0%float by (vm_compute; reflexivity).
  rewrite Hcos, Hsin.
  vm_compute. reflexivity.
Qed.

Lemma series_cos_0 : series_cos 0%float = 1%float.
Proof. vm_compute. reflexivity. Qed.

Lemma series_sin_0 : series_sin 0%float = 0%float.
Proof. vm_compute. reflexivity. Qed.

(** ** The ring generator: claims *)

(** C2, as stated, fails: called with [steps = 2] (binary64 arithmetic,
    centre [(0, 0)], radius 1000 m) [circle] throws nothing; it returns a
    feature whose ring has three entries. *)
Lemma circle_two_steps_returns :
  (2 < 3)%Z /\
  (forall err : string,
      circle_call (N := JsFloat) (0, 0)%float 1000%float 2 <> Throws err) /\
  exists f,
    circle_call (N := JsFloat) (0, 0)%float 1000%float 2 = Returns f /\
    length (ring_of f) = 3%nat.
Proof.
  split; [lia|]. split.
  - intros err H. discriminate H.
  - eexists. split; [reflexivity|].
    unfold ring_of, circle. cbn [geometry coordinates hd].
    apply (circle_coords_length (N := JsFloat)).
Qed.

(** C2, amended: [circle] has no argument check.  For every centre, radius
    and [steps < 3] the call returns a feature, never an error; its ring has
    [max(steps, 0) + 1] entries, and for [steps <= 0] that ring is the single
    entry [undefined]. *)
Theorem circle_small_steps_returns :
  forall (num : Type) (N : Number num) (center : num * num) (radiusMeters : num)
         (steps : Z),
    (steps < 3)%Z ->
    exists f,
      circle_call center radiusMeters steps = Returns f /\
      length (ring_of f) = (Z.to_nat steps + 1)%nat /\
      ((steps <= 0)%Z -> ring_of f = [Undefined]).
Proof.
  intros num N [lon lat] r steps _.
  eexists. split; [reflexivity|].
  unfold ring_of, circle. cbn [geometry coordinates hd]. split.
  - apply circle_coords_length.
  - apply circle_coords_degenerate.
Qed.

(** The amended C2 at [steps = 2], in binary64. *)
Lemma circle_small_steps_returns_witness :
  exists f,
    circle_call (N := JsFloat) (0, 0)%float 1000%float 2 = Returns f /\
    length (ring_of f) = (Z.to_nat 2 + 1)%nat /\
    ((2 <= 0)%Z -> ring_of f = [Undefined]).
Proof.
  apply (@circle_small_steps_returns float JsFloat (0, 0)%float 1000%float 2).
  lia.
Defined.

(** C3, as stated, fails in the arithmetic the code runs on: for radius
    [1e-12] m around [(lon, lat) = (1, 0)] with three steps, the first vertex
    is the centre itself (the longitude offset, about [9e-18] degrees, is
    lost when added to [1]), so its flat-earth distance from the centre is
    [0], which is not within a relative tolerance of a half, let alone a
    small one, of [r > 0]. *)
Lemma circle_tiny_radius_collapses :
  PrimFloat.ltb 0 tiny_radius = true /\
  nth_error (ring_of (circle (N := JsFloat) (1, 0)%float tiny_radius 3)) 0
  = Some (Pt 1%float 0%float) /\
  flat_dist (N := JsFloat) (1, 0)%float 1%float 0%float = 0%float /\
  within_tolerance 0x1p-1%float tiny_radius 0%float = false /\
  within_tolerance 0x1p-20%float tiny_radius 0%float = false.
Proof.
  split; [vm_compute; reflexivity|]. split.
  - apply first_vertex_absorbed; [apply series_cos_0 | apply series_sin_0].
  - repeat split; vm_compute; reflexivity.
Qed.

(** C3, amended.  In every arithmetic and for every centre, radius and
    [steps >= 3], the ring has exactly [steps + 1] entries, its first entry
    is the vertex of angle 0, and its last entry equals its first.  In
    binary64, whatever [Math.cos] and [Math.sin] the engine has: for a
    radius [r] from 1 m to 1e9 m and a centre with [|lon| <= 360] and
    [|lat| <= 90], every non-closing vertex lies within the relative
    tolerance [2^-20] of distance [r] from the centre under [flat_dist],
    provided the engine's cosine of the latitude lies in [[2^-54, 1]] and
    its cosine and sine of the vertex's angle form a [unit_pair]. *)
Theorem circle_ring_shape_and_radius :
  (forall (num : Type) (N : Number num) (center : num * num) (r : num) (s : Z),
      (3 <= s)%Z ->
      Z.of_nat (length (ring_of (circle center r s))) = (s + 1)%Z /\
      nth_error (ring_of (circle center r s)) 0
      = Some (vertex (fst center) (snd center) r s 0) /\
      nth 0 (ring_of (circle center r s)) Undefined
      = last (ring_of (circle center r s)) Undefined) /\
  (forall (fcos fsin : float -> float) (lon lat r : float) (s i : Z),
      (0 <= i < s)%Z ->
      radius_in_range r = true ->
      center_in_range lon lat = true ->
      cosine_in_range (fcos (latitude_radians lat)) = true ->
      unit_pair (fcos (vertex_angle s i)) (fsin (vertex_angle s i)) = true ->
      exists vlon vlat : float,
        nth_error (ring_of (circle (N := Float64 fcos fsin) (lon, lat) r s))
                  (Z.to_nat i)
        = Some (Pt vlon vlat) /\
        within_tolerance 0x1p-20 r
          (flat_dist (N := Float64 fcos fsin) (lon, lat) vlon vlat) = true).
Proof.
  split.
  - intros num N [lon lat] r s Hs.
    unfold ring_of, circle. cbn [geometry coordinates hd fst snd].
    split; [rewrite circle_coords_length; lia|].
    split; [|apply circle_coords_closed].
    now rewrite circle_coords_nth by lia.
  - intros fcos fsin lon lat r s i Hi Hr Hc Hg Hu.
    unfold ring_of, circle. cbn [geometry coordinates hd].
    rewrite (circle_coords_nth (N := Float64 fcos fsin)) by lia.
    rewrite Z2Nat.id by lia.
    unfold vertex. cbv zeta. eexists. eexists. split; [reflexivity|].
    unfold radius_in_range in Hr. unfold center_in_range in Hc.
    unfold cosine_in_range in Hg. unfold unit_pair in Hu.
    apply andb_prop in Hr, Hc, Hg, Hu.
    destruct Hr as [Hr1 Hr2], Hc as [Hlon Hlat], Hg as [Hg1 Hg2],
             Hu as [Hu Hp].
    apply andb_prop in Hu. destruct Hu as [Hcos Hsin].
    exact (ring_distance_float _ _ _ lon lat r
             Hr1 Hr2 Hlon Hlat Hg1 Hg2 Hcos Hsin Hp).
Qed.

(** The amended C3 at the entry point the application starts from: the
    shape of a ring of three steps, and the radius of the sixth vertex of
    the 2000 m ring of 128 steps, with [series_cos] and [series_sin] for the
    engine's functions. *)
Lemma circle_ring_shape_and_radius_witness :
  Z.of_nat (length (ring_of (circle (N := JsFloat) (1, 0)%float tiny_radius 3)))
  = 4%Z /\
  exists vlon vlat : float,
    nth_error (ring_of (circle (N := JsFloat) (initial_center (N := JsFloat))
                               (float_of_Z 2000) 128)) 5
    = Some (Pt vlon vlat) /\
    within_tolerance 0x1p-20 (float_of_Z 2000)
      (flat_dist (N := JsFloat) (initial_center (N := JsFloat)) vlon vlat)
    = true.
Proof.
  destruct circle_ring_shape_and_radius as [Hshape Hradius].
  split.
  - apply (Hshape float JsFloat (1, 0)%float tiny_radius 3%Z). lia.
  - apply (Hradius series_cos series_sin
             (fst (initial_center (N := JsFloat)))
             (snd (initial_center (N := JsFloat)))
             (float_of_Z 2000) 128%Z 5%Z);
      [lia | vm_compute; reflexivity ..].
Defined.

(** C8, as stated, fails: with the threshold at 85 degrees and the centre at
    latitude 89, the call returns an ordinary feature with empty
    [properties]; nothing is thrown and nothing is flagged. *)
Lemma circle_high_latitude_not_flagged :
  PrimFloat.ltb 85%float (PrimFloat.abs 89%float) = true /\
  flagged (circle_call (N := JsFloat) (0, 89)%float 1000%float 128) = false.
Proof. split; vm_compute; reflexivity. Qed.

(** C8, amended: [circle] has no latitude threshold and no flag.  At every
    latitude the call returns without flagging anything, and the ring it
    returns is the uncorrected equirectangular formula [vertex] at the
    counters [0 .. steps-1], followed by the closing entry. *)
Theorem circle_never_flags :
  forall (num : Type) (N : Number num) (lon lat radiusMeters : num) (steps : Z),
    flagged (circle_call (lon, lat) radiusMeters steps) = false /\
    ring_of (circle (lon, lat) radiusMeters steps) =
    (let coords := map (fun k => vertex lon lat radiusMeters steps (Z.of_nat k))
                       (seq 0 (Z.to_nat steps)) in
     coords ++ [nth 0 coords Undefined]).
Proof.
  intros num N lon lat r steps. split; [reflexivity|].
  unfold ring_of, circle. cbn [geometry coordinates hd].
  apply circle_coords_unfold.
Qed.

(** ** The overlay: claims *)

(** C7: with no simulation result the overlay has no layer; with a result it
    has exactly two layers, ['op-1psi'] then ['op-5psi'], each holding one
    polygon feature, the ring [circle] draws around the result's centre
    [(lon, lat)] with the radius stored under that key of
    [overpressure_radii_m] and the default 128 steps. *)
Theorem layers_two_rings :
  forall (num : Type) (N : Number num),
    layers (num := num) None = [] /\
    forall s : SimulationResult num,
      let ctr := (SimulationResult.lon (SimulationResult.center s),
                  SimulationResult.lat (SimulationResult.center s)) in
      let radii := SimulationResult.overpressure_radii_m s in
      exists l1 l5 : GeoJsonLayer num,
        layers (Some s) = [l1; l5] /\
        id l1 = "op-1psi"%string /\ id l5 = "op-5psi"%string /\
        features (data l1) = [circle ctr (SimulationResult.psi1 radii) 128] /\
        features (data l5) = [circle ctr (SimulationResult.psi5 radii) 128] /\
        layer_rings l1 = [[circle_coords ctr (SimulationResult.psi1 radii) 128]] /\
        layer_rings l5 = [[circle_coords ctr (SimulationResult.psi5 radii) 128]].
Proof.
  intros num N. split; [reflexivity|].
  intros s ctr radii. unfold layers.
  eexists. eexists. split; [reflexivity|].
  repeat split.
Qed.

(** C9: the overlay is a function of the stored simulation result alone.
    Two application states with equal [sim] have the same layers, hence the
    same ring coordinates, whatever their view states (and whatever else
    differs between them). *)
Theorem overlay_depends_on_sim_only :
  forall (num : Type) (N : Number num) (st1 st2 : AppState num),
    sim st1 = sim st2 ->
    app_layers st1 = app_layers st2 /\
    map layer_rings (app_layers st1) = map layer_rings (app_layers st2).
Proof.
  intros num N st1 st2 Hsim. unfold app_layers. now rewrite Hsim.
Qed.

(** C9 at two states that show the example result under different cameras:
    both draw the same two layers. *)
Lemma overlay_depends_on_sim_only_witness :
  PrimFloat.eqb (zoom (viewState example_state))
                (zoom (viewState example_state_moved)) = false /\
  length (app_layers (N := JsFloat) example_state) = 2%nat /\
  app_layers (N := JsFloat) example_state
  = app_layers (N := JsFloat) example_state_moved /\
  map layer_rings (app_layers (N := JsFloat) example_state)
  = map layer_rings (app_layers (N := JsFloat) example_state_moved).
Proof.
  split; [vm_compute; reflexivity|]. split; [reflexivity|].
  apply (@overlay_depends_on_sim_only float JsFloat). reflexivity.
Defined.

(** ** The event loop: invariants *)

Lemma Status_eqb_eq (a b : Status) : Status_eqb a b = true <-> a = b.
Proof. destruct a, b; simpl; split; congruence. Qed.

Section EventLoop.
Context {num : Type} {N : Number num}.

(** In a consistent pipeline a response can only be for the one pending
    call, and handling it leaves none. *)
Lemma pending_settle_last {A : Type} (status : Status) (pending : list A)
      (k : nat) (x : A) :
  pipeline_consistent status pending -> nth_error pending k = Some x ->
  status = loading /\ k = 0%nat /\ remove_nth k pending = [].
Proof.
  intros [[Hs Hl] | [_ Hp]] Hk.
  - destruct pending as [|y [|z rest]]; try discriminate Hl.
    destruct k as [|k]; [now auto|].
    destruct k; discriminate Hk.
  - subst pending. destruct k; discriminate Hk.
Qed.

Lemma consistent_step (w w' : World num) (e : Event num) :
  consistent w -> ui_event e = true -> step w e = Some w' -> consistent w'.
Proof.
  intros [Hsim Hpha] Hui Hstep.
  destruct e as [lng lat | v | f | | | k o | | | k o];
    simpl in Hstep; try discriminate Hui.
  - injection Hstep as <-. split; assumption.
  - injection Hstep as <-. split; assumption.
  - injection Hstep as <-. split; assumption.
  - unfold run_button_disabled in Hstep.
    destruct (Status_eqb (simStatus (app w)) loading) eqn:E; [discriminate|].
    injection Hstep as <-. split; [|assumption].
    left. simpl. destruct Hsim as [[Hs _] | [_ Hp]].
    + apply Status_eqb_eq in Hs. congruence.
    + rewrite Hp. now split.
  - destruct (nth_error (simPending w) k) eqn:Hk; [|discriminate].
    injection Hstep as <-.
    destruct (@pending_settle_last _ _ _ _ _ Hsim Hk) as (_ & _ & Hr).
    split; [|destruct o; assumption].
    right. simpl. rewrite Hr. split; [|reflexivity].
    destruct o; simpl; discriminate.
  - unfold refresh_button_disabled in Hstep.
    destruct (Status_eqb (phaStatus (app w)) loading) eqn:E; [discriminate|].
    injection Hstep as <-. split; [assumption|].
    left. simpl. destruct Hpha as [[Hs _] | [_ Hp]].
    + apply Status_eqb_eq in Hs. congruence.
    + rewrite Hp. now split.
  - destruct (nth_error (phaPending w) k) eqn:Hk; [|discriminate].
    injection Hstep as <-.
    destruct (@pending_settle_last _ _ _ _ _ Hpha Hk) as (_ & _ & Hr).
    split; [destruct o; assumption|].
    right. simpl. rewrite Hr. split; [|reflexivity].
    destruct o; simpl; discriminate.
Qed.

Lemma ui_reachable_consistent (w : World num) :
  ui_reachable w -> consistent w.
Proof.
  induction 1 as [|w w' e _ IH Hui Hstep].
  - split; right; simpl; split; (discriminate || reflexivity).
  - eapply consistent_step; eassumption.
Qed.

(** While the simulation pipeline is [loading], nothing but its response
    touches its status, its pending call, its result or its message. *)
Lemma loading_step (w w' : World num) (e : Event num) :
  simStatus (app w) = loading -> between_click_and_response e ->
  step w e = Some w' ->
  simStatus (app w') = loading /\ simPending w' = simPending w /\
  sim (app w') = sim (app w) /\ simError (app w') = simError (app w).
Proof.
  intros Hl [Hui Hns] Hstep.
  destruct e as [lng lat | v | f | | | k o | | | k o];
    simpl in Hstep; try discriminate Hui; try discriminate Hns;
    try (injection Hstep as <-; now auto).
  - unfold run_button_disabled in Hstep. rewrite Hl in Hstep. discriminate.
  - destruct (refresh_button_disabled (app w)); [discriminate|].
    injection Hstep as <-. now auto.
  - destruct (nth_error (phaPending w) k); [|discriminate].
    injection Hstep as <-. destruct o; now auto.
Qed.

Lemma loading_run (events : list (Event num)) :
  forall w w' : World num,
    simStatus (app w) = loading ->
    Forall between_click_and_response events ->
    run w events = Some w' ->
    simStatus (app w') = loading /\ simPending w' = simPending w /\
    sim (app w') = sim (app w) /\ simError (app w') = simError (app w).
Proof.
  induction events as [|e rest IH]; intros w w' Hl Hall Hrun; simpl in Hrun.
  - injection Hrun as <-. now auto.
  - inversion Hall as [|? ? He Hrest]; subst.
    destruct (step w e) as [w1|] eqn:Hstep; [|discriminate].
    destruct (loading_step _ Hl He Hstep) as (Hl1 & Hp1 & Hs1 & He1).
    destruct (IH _ _ Hl1 Hrest Hrun) as (Hl2 & Hp2 & Hs2 & He2).
    repeat split; congruence.
Qed.

(** A response to a pending call is handled by [runSim_resume]. *)
Lemma step_sim_settled (w : World num) (k : nat)
      (o : Outcome (SimulationResult num)) (request : SimRequest num) :
  nth_error (simPending w) k = Some request ->
  step w (SimSettled k o)
  = Some {| app := runSim_resume o (app w);
            simPending := remove_nth k (simPending w);
            phaPending := phaPending w |}.
Proof. intros Hk. cbn [step]. now rewrite Hk. Qed.

(** A failed response of either pipeline changes no stored data. *)
Lemma rejected_step_keeps_data (w w' : World num) (e : Event num) (t : Thrown) :
  (exists k, e = SimSettled k (Rejected t)) \/
  (exists k, e = PhaSettled k (Rejected t)) ->
  step w e = Some w' -> stored_data (app w') = stored_data (app w).
Proof.
  intros [[k ->] | [k ->]] Hstep; simpl in Hstep.
  - destruct (nth_error (simPending w) k); [|discriminate].
    now injection Hstep as <-.
  - destruct (nth_error (phaPending w) k); [|discriminate].
    now injection Hstep as <-.
Qed.

End EventLoop.

(** ** Overlapping simulation requests *)

Section Race.
Context {num : Type}.

Lemma nth_error_app_length {A : Type} (l r : list A) (x : A) :
  nth_error (l ++ x :: r) (length l) = Some x.
Proof.
  rewrite nth_error_app2 by lia. now rewrite Nat.sub_diag.
Qed.

Lemma remove_nth_app_length {A : Type} (l r : list A) (x : A) :
  remove_nth (length l) (l ++ x :: r) = l ++ r.
Proof.
  induction l as [|y l IH]; simpl; [reflexivity | now rewrite IH].
Qed.

(** The world after [runSim] was called at entry point A, the map was
    clicked at [(lng, lat)], and [runSim] was called again: both calls are
    pending, after whatever was pending before. *)
Lemma two_calls_pending (w : World num) (lng lat : num) :
  exists (w3 : World num) (reqA reqB : SimRequest num),
    run w [InvokeRunSim; MapClick lng lat; InvokeRunSim] = Some w3 /\
    simPending w3 = simPending w ++ [reqA; reqB] /\
    (request_lon reqA, request_lat reqA) = center (app w) /\
    (request_lon reqB, request_lat reqB) = (lng, lat).
Proof.
  eexists. eexists. eexists. split; [reflexivity|].
  simpl. rewrite <- app_assoc. simpl.
  split; [reflexivity|]. split; [|reflexivity].
  now destruct (center (app w)).
Qed.

(** With two calls pending at positions [n] and [n + 1], two successful
    responses leave the result of whichever is handled second. *)
Lemma second_response_stored (w3 : World num) (queue : list (SimRequest num))
      (reqA reqB : SimRequest num) (dataA dataB : SimulationResult num) :
  simPending w3 = queue ++ [reqA; reqB] ->
  (exists w5,
      run w3 [SimSettled (length queue) (Fulfilled dataA);
              SimSettled (length queue) (Fulfilled dataB)] = Some w5 /\
      sim (app w5) = Some dataB /\ simPending w5 = queue) /\
  (exists w5,
      run w3 [SimSettled (S (length queue)) (Fulfilled dataB);
              SimSettled (length queue) (Fulfilled dataA)] = Some w5 /\
      sim (app w5) = Some dataA /\ simPending w5 = queue).
Proof.
  intros Hp. split.
  - cbn [run].
    rewrite (@step_sim_settled num w3 _ _ reqA)
      by (rewrite Hp; apply nth_error_app_length).
    rewrite (@step_sim_settled num _ _ _ reqB)
      by (cbn [simPending]; rewrite Hp, remove_nth_app_length;
          apply nth_error_app_length).
    eexists. split; [reflexivity|]. split; [reflexivity|].
    cbn [simPending]. rewrite Hp.
    now rewrite !remove_nth_app_length, app_nil_r.
  - assert (Hq : queue ++ [reqA; reqB] = (queue ++ [reqA]) ++ [reqB])
      by now rewrite <- app_assoc.
    assert (Hn : S (length queue) = length (queue ++ [reqA]))
      by (rewrite length_app; simpl; lia).
    cbn [run].
    rewrite (@step_sim_settled num w3 _ _ reqB)
      by (rewrite Hp, Hq, Hn; apply nth_error_app_length).
    rewrite (@step_sim_settled num _ _ _ reqA)
      by (cbn [simPending];
          rewrite Hp, Hq, Hn, remove_nth_app_length, app_nil_r;
          apply nth_error_app_length).
    eexists. split; [reflexivity|]. split; [reflexivity|].
    cbn [simPending]. rewrite Hp, Hq, Hn.
    now rewrite remove_nth_app_length, app_nil_r,
                remove_nth_app_length, app_nil_r.
Qed.

End Race.

(** The two example responses are different results. *)
Lemma example_results_differ : Some example_result <> Some other_result.
Proof.
  intros H.
  apply (f_equal
           (fun r => match r with
                     | Some r =>
                         PrimFloat.eqb
                           (SimulationResult.lat (SimulationResult.center r))
                           20%float
                     | None => true
                     end)) in H.
  vm_compute in H. discriminate H.
Qed.

(** ** The request pipelines: claims *)

(** C1, as stated, fails: [runSim] is called at the initial entry point
    (request A), the map is clicked at [(10, 20)], [runSim] is called again
    (request B), B's response arrives first and A's second.  The stored
    result is then A's, not that of the most recently issued request. *)
Lemma race_earlier_request_wins :
  exists w3 w5 : World float,
    run (initial_world (N := JsFloat))
        [InvokeRunSim; MapClick 10%float 20%float; InvokeRunSim] = Some w3 /\
    map (fun q => PrimFloat.eqb (request_lat q) 20%float) (simPending w3)
    = [false; true] /\
    run w3 [SimSettled 1 (Fulfilled other_result);
            SimSettled 0 (Fulfilled example_result)] = Some w5 /\
    simPending w5 = [] /\
    sim (app w5) = Some example_result /\
    sim (app w5) <> Some other_result.
Proof.
  eexists. eexists. split; [reflexivity|].
  split; [vm_compute; reflexivity|].
  split; [reflexivity|]. split; [reflexivity|].
  split; [reflexivity|]. simpl. apply example_results_differ.
Qed.

(** C1, amended: [runSim] carries no request token, so when it is called
    twice before any response (at the current entry point, then at a newly
    clicked one) and both calls succeed, the stored result is the one whose
    response is handled last: B's when B's response arrives after A's, A's
    when A's arrives after B's.  The only guard is the run button, which
    is disabled, so that a click cannot call [runSim], while the status is
    [loading]. *)
Theorem race_last_response_wins :
  forall (num : Type) (w : World num) (lng lat : num)
         (dataA dataB : SimulationResult num),
    (exists (w3 : World num) (reqA reqB : SimRequest num),
        run w [InvokeRunSim; MapClick lng lat; InvokeRunSim] = Some w3 /\
        simPending w3 = simPending w ++ [reqA; reqB] /\
        (request_lon reqA, request_lat reqA) = center (app w) /\
        (request_lon reqB, request_lat reqB) = (lng, lat) /\
        (exists w5,
            run w3 [SimSettled (length (simPending w)) (Fulfilled dataA);
                    SimSettled (length (simPending w)) (Fulfilled dataB)]
            = Some w5 /\
            sim (app w5) = Some dataB /\ simPending w5 = simPending w) /\
        (exists w5,
            run w3 [SimSettled (S (length (simPending w))) (Fulfilled dataB);
                    SimSettled (length (simPending w)) (Fulfilled dataA)]
            = Some w5 /\
            sim (app w5) = Some dataA /\ simPending w5 = simPending w)) /\
    step (invoke_runSim w) ClickRunSim = None.
Proof.
  intros num w lng lat dataA dataB. split; [|reflexivity].
  destruct (two_calls_pending w lng lat)
    as (w3 & reqA & reqB & Hrun & Hp & HA & HB).
  exists w3, reqA, reqB.
  repeat (split; [assumption|]).
  apply (@second_response_stored num w3 (simPending w) reqA reqB dataA dataB Hp).
Qed.

(** C4: from [idle] or [error], a click on the run button puts the status
    to [loading] in that same turn of the event loop; the status stays
    [loading] through whatever else happens until the response; the
    response then puts it to [idle] with the result stored, or to [error]
    with a message.  And no response can be handled in a world whose status
    is not [loading]: a terminal status is only ever entered from
    [loading]. *)
Theorem runSim_status_machine :
  forall (num : Type) (N : Number num) (w : World num),
    ui_reachable w ->
    simStatus (app w) = idle \/ simStatus (app w) = error ->
    (forall k o, step w (SimSettled k o) = None) /\
    exists w1 : World num,
      step w ClickRunSim = Some w1 /\
      simStatus (app w1) = loading /\
      forall (events : list (Event num)) (w' : World num),
        Forall between_click_and_response events ->
        run w1 events = Some w' ->
        simStatus (app w') = loading /\
        (forall data, exists w2,
              step w' (SimSettled 0 (Fulfilled data)) = Some w2 /\
              simStatus (app w2) = idle /\ sim (app w2) = Some data) /\
        (forall e, exists w2,
              step w' (SimSettled 0 (Rejected e)) = Some w2 /\
              simStatus (app w2) = error /\
              simError (app w2) = Some (sim_message e)).
Proof.
  intros num N w Hreach Hstatus.
  assert (Hnl : simStatus (app w) <> loading) by (destruct Hstatus; congruence).
  destruct (ui_reachable_consistent Hreach) as [[[Hl _] | [_ Hp]] _];
    [contradiction|].
  split.
  - intros k o. simpl. rewrite Hp. now destruct k.
  - eexists. split.
    + simpl. unfold run_button_disabled.
      destruct (Status_eqb (simStatus (app w)) loading) eqn:E;
        [apply Status_eqb_eq in E; contradiction | reflexivity].
    + split; [reflexivity|].
      intros events w' Hall Hrun.
      apply loading_run in Hrun; [|reflexivity|assumption].
      destruct Hrun as (Hl' & Hp' & _ & _).
      split; [assumption|].
      unfold invoke_runSim in Hp'. simpl in Hp'. rewrite Hp in Hp'. simpl in Hp'.
      split; intros x; simpl; rewrite Hp'; simpl; eexists; now repeat split.
Qed.

(** C4 at the freshly mounted application. *)
Lemma runSim_status_machine_witness :
  (forall k o, step (initial_world (N := JsFloat)) (SimSettled k o) = None) /\
  exists w1 : World float,
    step (initial_world (N := JsFloat)) ClickRunSim = Some w1 /\
    simStatus (app w1) = loading /\
    forall (events : list (Event float)) (w' : World float),
      Forall between_click_and_response events ->
      run w1 events = Some w' ->
      simStatus (app w') = loading /\
      (forall data, exists w2,
            step w' (SimSettled 0 (Fulfilled data)) = Some w2 /\
            simStatus (app w2) = idle /\ sim (app w2) = Some data) /\
      (forall e, exists w2,
            step w' (SimSettled 0 (Rejected e)) = Some w2 /\
            simStatus (app w2) = error /\
            simError (app w2) = Some (sim_message e)).
Proof.
  apply (@runSim_status_machine float JsFloat (initial_world (N := JsFloat))).
  - apply reach_initial.
  - left. reflexivity.
Defined.

(** C5: when a simulation response is a failure, the status becomes [error],
    the message is the error's own or the fixed fallback, and the stored
    result and candidate list are the ones from before the response, which
    are the ones from before the request was started; likewise for the
    candidate search.  A success replaces the stored value by the whole
    response.  So a request either stores its whole result or changes no
    stored data. *)
Theorem failed_request_keeps_data :
  forall (num : Type) (w w' : World num) (k : nat) (e : Thrown),
    (step w (SimSettled k (Rejected e)) = Some w' ->
     simStatus (app w') = error /\
     simError (app w') = Some (sim_message e) /\
     stored_data (app w') = stored_data (app w)) /\
    (step w (PhaSettled k (Rejected e)) = Some w' ->
     phaStatus (app w') = error /\
     phaError (app w') = Some (pha_message e) /\
     stored_data (app w') = stored_data (app w)) /\
    stored_data (fst (runSim_begin (app w))) = stored_data (app w) /\
    stored_data (fst (refresh_begin (app w))) = stored_data (app w) /\
    (forall data, sim (runSim_resume (Fulfilled data) (app w)) = Some data) /\
    (forall rows, phaResults (refresh_resume (Fulfilled rows) (app w)) = rows).
Proof.
  intros num w w' k e.
  split; [|split; [|now repeat split]].
  - intros Hstep.
    assert (Hdata : stored_data (app w') = stored_data (app w))
      by (eapply rejected_step_keeps_data; [left; eexists; reflexivity | eassumption]).
    simpl in Hstep. destruct (nth_error (simPending w) k); [|discriminate].
    injection Hstep as <-. now repeat split.
  - intros Hstep.
    assert (Hdata : stored_data (app w') = stored_data (app w))
      by (eapply rejected_step_keeps_data; [right; eexists; reflexivity | eassumption]).
    simpl in Hstep. destruct (nth_error (phaPending w) k); [|discriminate].
    injection Hstep as <-. now repeat split.
Qed.

(** C5 where the example result is on screen and a new run fails with an
    [Error]: the message is shown and the result stays. *)
Lemma failed_request_keeps_data_witness :
  exists w' : World float,
    step example_world_loading (SimSettled 0 (Rejected (ErrorObject "HTTP 500")))
    = Some w' /\
    simStatus (app w') = error /\
    simError (app w') = Some "HTTP 500"%string /\
    stored_data (app w') = (Some example_result, []).
Proof.
  eexists. split; [reflexivity|].
  apply (@failed_request_keeps_data float example_world_loading _ 0
           (ErrorObject "HTTP 500")).
  reflexivity.
Defined.

(** C6, as stated, fails: in a world that shows a result, a click on the
    run button puts the status to [loading] and the earlier result is still
    the stored one. *)
Lemma runSim_begin_retains_result :
  sim (app example_world) = Some example_result /\
  step example_world ClickRunSim = Some example_world_loading /\
  simStatus (app example_world_loading) = loading /\
  sim (app example_world_loading) = Some example_result /\
  sim (app example_world_loading) <> None.
Proof. repeat split. discriminate. Qed.

(** C6, amended: starting a simulation request leaves the stored result as
    it is while the status enters [loading]; the result is replaced, whole
    and without merging, only when a request succeeds. *)
Theorem runSim_begin_keeps_sim :
  forall (num : Type) (st : AppState num),
    simStatus (fst (runSim_begin st)) = loading /\
    sim (fst (runSim_begin st)) = sim st /\
    forall data : SimulationResult num,
      sim (runSim_resume (Fulfilled data) (fst (runSim_begin st))) = Some data.
Proof. intros num st. repeat split. Qed.

(** C10: starting a request sets that pipeline's message to [null] in the
    same turn in which its status enters [loading], for the simulation and
    for the candidate search alike, so no error text is on screen right
    after the click; and in every world the user and the network can reach,
    no error text of a pipeline is on screen while a call of it is
    pending. *)
Theorem begin_clears_error :
  forall (num : Type) (N : Number num),
    (forall st : AppState num,
        simStatus (fst (runSim_begin st)) = loading /\
        simError (fst (runSim_begin st)) = None /\
        shown_sim_error (fst (runSim_begin st)) = None) /\
    (forall st : AppState num,
        phaStatus (fst (refresh_begin st)) = loading /\
        phaError (fst (refresh_begin st)) = None /\
        shown_pha_error (fst (refresh_begin st)) = None) /\
    (forall w : World num,
        ui_reachable w ->
        (simPending w <> [] -> shown_sim_error (app w) = None) /\
        (phaPending w <> [] -> shown_pha_error (app w) = None)).
Proof.
  intros num N. split; [now repeat split|]. split; [now repeat split|].
  intros w Hreach.
  destruct (ui_reachable_consistent Hreach) as [Hsim Hpha].
  split; intros Hne.
  - destruct Hsim as [[Hl _] | [_ Hp]]; [|contradiction].
    unfold shown_sim_error. now rewrite Hl.
  - destruct Hpha as [[Hl _] | [_ Hp]]; [|contradiction].
    unfold shown_pha_error. now rewrite Hl.
Qed.

(** C10 after a failed run: the error text is on screen, and the click that
    starts the next run takes it off. *)
Lemma begin_clears_error_witness :
  run (initial_world (N := JsFloat))
      [ClickRunSim; SimSettled 0 (Rejected (ErrorObject "HTTP 500"))]
  = Some example_world_failed /\
  shown_sim_error (app example_world_failed) = Some "HTTP 500"%string /\
  exists w : World float,
    step example_world_failed ClickRunSim = Some w /\
    simPending w <> [] /\
    shown_sim_error (app w) = None.
Proof.
  split; [reflexivity|]. split; [reflexivity|].
  eexists. split; [reflexivity|]. split; [discriminate|].
  destruct (@begin_clears_error float JsFloat) as (_ & _ & Hshown).
  apply Hshown; [|discriminate].
  apply (@reach_step float JsFloat example_world_failed _ ClickRunSim);
    [|reflexivity|reflexivity].
  apply (@reach_step float JsFloat (invoke_runSim initial_world) _
           (SimSettled 0 (Rejected (ErrorObject "HTTP 500"))));
    [|reflexivity|reflexivity].
  apply (@reach_step float JsFloat initial_world _ ClickRunSim);
    [|reflexivity|reflexivity].
  apply reach_initial.
Defined.

(** * Part III: further properties of the code *)

(** ** The ring generator *)

(** From one step on, no entry of the ring is [undefined]. *)
Lemma circle_coords_defined {num : Type} {N : Number num}
      (lon lat r : num) (s : Z) :
  (0 < s)%Z -> ~ In Undefined (circle_coords (lon, lat) r s).
Proof.
  intros Hs Hin. rewrite circle_coords_unfold in Hin. cbv zeta in Hin.
  apply in_app_or in Hin. destruct Hin as [Hin | [Hin | []]].
  - apply in_map_iff in Hin. destruct Hin as (k & Hk & _).
    unfold vertex in Hk. discriminate Hk.
  - destruct (Z.to_nat s) as [|n] eqn:E; [lia|].
    simpl in Hin. unfold vertex in Hin. discriminate Hin.
Qed.

(** X1: for every centre, radius and [steps], in any arithmetic, the ring
    has [max(steps, 0) + 1] entries, and it holds an [undefined] entry
    exactly when [steps <= 0]: from one step on, every entry, the closing
    one included, is a coordinate pair. *)
Theorem circle_ring_undefined_iff :
  forall (num : Type) (N : Number num) (center : num * num) (r : num) (s : Z),
    length (ring_of (circle center r s)) = (Z.to_nat s + 1)%nat /\
    (In Undefined (ring_of (circle center r s)) <-> (s <= 0)%Z).
Proof.
  intros num N [lon lat] r s.
  unfold ring_of, circle. cbn [geometry coordinates hd].
  split; [apply circle_coords_length|].
  split.
  - intros Hin. destruct (Z.leb_spec s 0) as [Hle | Hgt]; [assumption|].
    exfalso. exact (circle_coords_defined lon lat r Hgt Hin).
  - intros Hle. rewrite circle_coords_degenerate by assumption.
    now left.
Qed.

(** X2, in binary64, whatever [Math.cos] and [Math.sin] the engine has: for
    a radius from 0 to 1e9 m and a centre with [|lon| <= 360] and
    [|lat| <= 90], a vertex of the ring is a pair of finite numbers, within
    [r/R * 180/pi] degrees of latitude and within [r/(R*cos(lat)) * 180/pi]
    degrees of longitude of the centre, each band widened by the factor
    [1 + 2e-15] and by [1e-13] degrees for the roundings.  Here [pi] is the
    value of [Math.PI] and [cos(lat)] the engine's cosine of the latitude,
    asked to lie in [[2^-54, 1]]; its cosine and sine of the vertex's angle
    are asked to lie in [[-1, 1]]. *)
Theorem circle_ring_within_bands :
  forall (fcos fsin : float -> float) (lon lat r : float) (s i : Z),
    (0 <= i < s)%Z ->
    radius_bounded r = true ->
    center_in_range lon lat = true ->
    cosine_in_range (fcos (latitude_radians lat)) = true ->
    PrimFloat.leb (PrimFloat.abs (fcos (vertex_angle s i))) 1 = true ->
    PrimFloat.leb (PrimFloat.abs (fsin (vertex_angle s i))) 1 = true ->
    exists vlon vlat : float,
      nth_error (ring_of (circle (N := Float64 fcos fsin) (lon, lat) r s))
                (Z.to_nat i)
      = Some (Pt vlon vlat) /\
      finite vlon /\ finite vlat /\
      (Rabs (F2R vlat - F2R lat)
       <= F2R r / 6378137 * 180 / F2R float_PI * (1 + 2e-15) + 1e-13)%R /\
      (Rabs (F2R vlon - F2R lon)
       <= F2R r / (6378137 * F2R (fcos (latitude_radians lat))) * 180
          / F2R float_PI * (1 + 2e-15) + 1e-13)%R.
Proof.
  intros fcos fsin lon lat r s i Hi Hr Hc Hg Hcos Hsin.
  unfold ring_of, circle. cbn [geometry coordinates hd].
  rewrite (circle_coords_nth (N := Float64 fcos fsin)) by lia.
  rewrite Z2Nat.id by lia.
  unfold vertex. cbv zeta. eexists. eexists. split; [reflexivity|].
  unfold radius_bounded in Hr. unfold center_in_range in Hc.
  unfold cosine_in_range in Hg.
  apply andb_prop in Hr, Hc, Hg.
  destruct Hr as [Hr1 Hr2], Hc as [Hlon Hlat], Hg as [Hg1 Hg2].
  exact (vertex_band_float _ _ _ lon lat r
           Hr1 Hr2 Hlon Hlat Hg1 Hg2 Hcos Hsin).
Qed.

(** X2 at the second vertex of the 2000 m ring of four steps around the
    entry point the application starts from, with [series_cos] and
    [series_sin] for the engine's functions. *)
Lemma circle_ring_within_bands_witness :
  exists vlon vlat : float,
    nth_error (ring_of (circle (N := JsFloat) (initial_center (N := JsFloat))
                               (float_of_Z 2000) 4)) 1
    = Some (Pt vlon vlat) /\
    finite vlon /\ finite vlat /\
    (Rabs (F2R vlat - F2R (snd (initial_center (N := JsFloat))))
     <= F2R (float_of_Z 2000) / 6378137 * 180 / F2R float_PI * (1 + 2e-15)
        + 1e-13)%R /\
    (Rabs (F2R vlon - F2R (fst (initial_center (N := JsFloat))))
     <= F2R (float_of_Z 2000)
        / (6378137
           * F2R (series_cos
                    (latitude_radians (snd (initial_center (N := JsFloat))))))
        * 180 / F2R float_PI * (1 + 2e-15) + 1e-13)%R.
Proof.
  apply (@circle_ring_within_bands series_cos series_sin
           (fst (initial_center (N := JsFloat)))
           (snd (initial_center (N := JsFloat)))
           (float_of_Z 2000) 4%Z 1%Z);
    [lia | vm_compute; reflexivity ..].
Defined.

(** ** The event loop *)

(** X3: through the buttons, each pipeline has at most one call awaiting its
    response, and its status is [loading] exactly while there is one. *)
Theorem ui_single_flight :
  forall (num : Type) (N : Number num) (w : World num),
    ui_reachable w ->
    (length (simPending w) <= 1)%nat /\
    (simStatus (app w) = loading <-> length (simPending w) = 1%nat) /\
    (length (phaPending w) <= 1)%nat /\
    (phaStatus (app w) = loading <-> length (phaPending w) = 1%nat).
Proof.
  intros num N w Hreach.
  destruct (ui_reachable_consistent Hreach) as [Hsim Hpha].
  assert (Hgen : forall (A : Type) (status : Status) (pending : list A),
             pipeline_consistent status pending ->
             (length pending <= 1)%nat /\
             (status = loading <-> length pending = 1%nat)).
  { intros A status pending [[Hs Hl] | [Hs Hp]].
    - split; [lia|]. split; auto.
    - subst pending. simpl. split; [lia|]. split; [contradiction | discriminate]. }
  destruct (Hgen _ _ _ Hsim) as [H1 H2].
  destruct (Hgen _ _ _ Hpha) as [H3 H4].
  auto.
Qed.

(** X3 in the world reached by one click on the run button: one simulation
    call pending, no candidate search. *)
Lemma ui_single_flight_witness :
  (length (simPending (invoke_runSim (initial_world (N := JsFloat)))) <= 1)%nat /\
  (simStatus (app (invoke_runSim (initial_world (N := JsFloat)))) = loading <->
   length (simPending (invoke_runSim (initial_world (N := JsFloat)))) = 1%nat) /\
  (length (phaPending (invoke_runSim (initial_world (N := JsFloat)))) <= 1)%nat /\
  (phaStatus (app (invoke_runSim (initial_world (N := JsFloat)))) = loading <->
   length (phaPending (invoke_runSim (initial_world (N := JsFloat)))) = 1%nat).
Proof.
  apply (@ui_single_flight float JsFloat).
  apply (@reach_step float JsFloat initial_world _ ClickRunSim);
    [apply reach_initial | reflexivity | reflexivity].
Defined.

Section MessageInvariant.
Context {num : Type} {N : Number num}.

Lemma message_matches_step (w w' : World num) (e : Event num) :
  consistent w -> ui_event e = true -> step w e = Some w' ->
  message_matches (simStatus (app w)) (simError (app w)) /\
  message_matches (phaStatus (app w)) (phaError (app w)) ->
  message_matches (simStatus (app w')) (simError (app w')) /\
  message_matches (phaStatus (app w')) (phaError (app w')).
Proof.
  intros [Hcs Hcp] Hui Hstep [Hms Hmp].
  destruct e as [lng lat | v | f | | | k o | | | k o];
    simpl in Hstep; try discriminate Hui;
    try (injection Hstep as <-; now split).
  - destruct (run_button_disabled (app w)); [discriminate|].
    injection Hstep as <-. split; [|assumption].
    right. simpl. split; [discriminate | reflexivity].
  - destruct (nth_error (simPending w) k) eqn:Hk; [|discriminate].
    injection Hstep as <-.
    destruct (@pending_settle_last _ _ _ _ _ Hcs Hk) as (Hl & _ & _).
    split; [|destruct o; assumption].
    destruct o as [data | t]; simpl.
    + right. split; [discriminate|].
      destruct Hms as [[He _] | [_ Hn]]; [congruence | assumption].
    + left. split; [reflexivity | discriminate].
  - destruct (refresh_button_disabled (app w)); [discriminate|].
    injection Hstep as <-. split; [assumption|].
    right. simpl. split; [discriminate | reflexivity].
  - destruct (nth_error (phaPending w) k) eqn:Hk; [|discriminate].
    injection Hstep as <-.
    destruct (@pending_settle_last _ _ _ _ _ Hcp Hk) as (Hl & _ & _).
    split; [destruct o; assumption|].
    destruct o as [rows | t]; simpl.
    + right. split; [discriminate|].
      destruct Hmp as [[He _] | [_ Hn]]; [congruence | assumption].
    + left. split; [reflexivity | discriminate].
Qed.

End MessageInvariant.

(** X4: through the buttons, a pipeline's error message is non-null exactly
    when its status is [error]: a success never leaves an old message
    behind, because by then the start of the request has cleared it. *)
Theorem ui_message_iff_error :
  forall (num : Type) (N : Number num) (w : World num),
    ui_reachable w ->
    (simError (app w) <> None <-> simStatus (app w) = error) /\
    (phaError (app w) <> None <-> phaStatus (app w) = error).
Proof.
  intros num N w Hreach.
  assert (Hinv : message_matches (simStatus (app w)) (simError (app w)) /\
                 message_matches (phaStatus (app w)) (phaError (app w))).
  { induction Hreach as [|w w' e Hreach IH Hui Hstep].
    - split; right; simpl; split; (discriminate || reflexivity).
    - eapply message_matches_step; try eassumption.
      now apply ui_reachable_consistent. }
  destruct Hinv as [[[Hs Hm] | [Hs Hm]] [[Hp Hq] | [Hp Hq]]];
    repeat split; intros; try assumption; try congruence.
Qed.

(** X4 after a failed run. *)
Lemma ui_message_iff_error_witness :
  (simError (app example_world_failed) <> None <->
   simStatus (app example_world_failed) = error) /\
  (phaError (app example_world_failed) <> None <->
   phaStatus (app example_world_failed) = error).
Proof.
  apply (@ui_message_iff_error float JsFloat).
  apply (@reach_step float JsFloat (invoke_runSim initial_world) _
           (SimSettled 0 (Rejected (ErrorObject "HTTP 500"))));
    [|reflexivity|reflexivity].
  apply (@reach_step float JsFloat initial_world _ ClickRunSim);
    [apply reach_initial | reflexivity | reflexivity].
Defined.

(** X5: each stored cell has one kind of event that can change it.  In one
    turn of the event loop, [center] changes only on a map click,
    [viewState] only on a map move, [params] only on a form edit, [sim]
    only on a successful simulation response and [phaResults] only on a
    successful candidate-search response. *)
Theorem single_writer :
  forall (num : Type) (w w' : World num) (e : Event num),
    step w e = Some w' ->
    (is_map_click e = false -> center (app w') = center (app w)) /\
    (is_map_move e = false -> viewState (app w') = viewState (app w)) /\
    (is_params_change e = false -> params (app w') = params (app w)) /\
    (is_sim_success e = false -> sim (app w') = sim (app w)) /\
    (is_pha_success e = false -> phaResults (app w') = phaResults (app w)).
Proof.
  intros num w w' e Hstep.
  destruct e as [lng lat | v | f | | | k o | | | k o]; simpl in Hstep.
  - injection Hstep as <-. repeat split; intros H; (reflexivity || discriminate H).
  - injection Hstep as <-. repeat split; intros H; (reflexivity || discriminate H).
  - injection Hstep as <-. repeat split; intros H; (reflexivity || discriminate H).
  - injection Hstep as <-. repeat split.
  - destruct (run_button_disabled (app w)); [discriminate|].
    injection Hstep as <-. repeat split.
  - destruct (nth_error (simPending w) k); [|discriminate].
    injection Hstep as <-.
    destruct o; repeat split; intros H; (reflexivity || discriminate H).
  - injection Hstep as <-. repeat split.
  - destruct (refresh_button_disabled (app w)); [discriminate|].
    injection Hstep as <-. repeat split.
  - destruct (nth_error (phaPending w) k); [|discriminate].
    injection Hstep as <-.
    destruct o; repeat split; intros H; (reflexivity || discriminate H).
Qed.

(** X5 at a map click in the example world: the entry point moves, the
    camera, the form, the result and the candidates stay. *)
Lemma single_writer_witness :
  viewState (app (with_app example_world
                           (setCenter (10, 20)%float (app example_world))))
  = viewState (app example_world) /\
  sim (app (with_app example_world
                     (setCenter (10, 20)%float (app example_world))))
  = Some example_result.
Proof.
  destruct (@single_writer float example_world _ (MapClick 10%float 20%float)
              eq_refl) as (_ & Hview & _ & Hsim & _).
  split; [apply Hview | apply Hsim]; reflexivity.
Defined.

Section StoredResult.
Context {num : Type}.

(** One turn either keeps [sim] or stores the data of a successful
    simulation response. *)
Lemma step_sim_cases (w w' : World num) (e : Event num) :
  step w e = Some w' ->
  (sim (app w') = sim (app w)) \/
  (is_sim_success e = true /\ sim (app w') <> None).
Proof.
  intros Hstep.
  destruct e as [lng lat | v | f | | | k o | | | k o]; simpl in Hstep;
    try (injection Hstep as <-; now left).
  - destruct (run_button_disabled (app w)); [discriminate|].
    injection Hstep as <-. now left.
  - destruct (nth_error (simPending w) k); [|discriminate].
    injection Hstep as <-.
    destruct o; [right; split; [reflexivity | discriminate] | now left].
  - destruct (refresh_button_disabled (app w)); [discriminate|].
    injection Hstep as <-. now left.
  - destruct (nth_error (phaPending w) k); [|discriminate].
    injection Hstep as <-. destruct o; now left.
Qed.

Lemma run_keeps_sim (events : list (Event num)) :
  forall w w' : World num,
    Forall (fun e => is_sim_success e = false) events ->
    run w events = Some w' -> sim (app w') = sim (app w).
Proof.
  induction events as [|e rest IH]; intros w w' Hall Hrun; simpl in Hrun.
  - now injection Hrun as <-.
  - inversion Hall as [|? ? He Hrest]; subst.
    destruct (step w e) as [w1|] eqn:Hstep; [|discriminate].
    rewrite (IH _ _ Hrest Hrun).
    destruct (step_sim_cases _ _ Hstep) as [Hsame | [Hsucc _]];
      [assumption | congruence].
Qed.

Lemma run_keeps_some_sim (events : list (Event num)) :
  forall w w' : World num,
    sim (app w) <> None -> run w events = Some w' -> sim (app w') <> None.
Proof.
  induction events as [|e rest IH]; intros w w' Hsome Hrun; simpl in Hrun.
  - now injection Hrun as <-.
  - destruct (step w e) as [w1|] eqn:Hstep; [|discriminate].
    apply (IH w1 w'); [|assumption].
    destruct (step_sim_cases _ _ Hstep) as [Hsame | [_ Hnew]];
      [congruence | assumption].
Qed.

End StoredResult.

(** X6: the overlay changes only when a simulation succeeds.  Whatever
    sequence of events holds no successful simulation response (map clicks
    and moves, form edits, starting a run, a failed run, anything of the
    candidate search) leaves the layers as they were. *)
Theorem overlay_changes_only_on_success :
  forall (num : Type) (N : Number num) (w w' : World num)
         (events : list (Event num)),
    Forall (fun e => is_sim_success e = false) events ->
    run w events = Some w' ->
    app_layers (app w') = app_layers (app w).
Proof.
  intros num N w w' events Hall Hrun. unfold app_layers.
  now rewrite (@run_keeps_sim num events w w' Hall Hrun).
Qed.

(** X6 where the example result is shown, the map is clicked and moved, and
    a new run fails: the two layers are still those of the example result. *)
Lemma overlay_changes_only_on_success_witness :
  exists w' : World float,
    run example_world
        [MapClick 10%float 20%float; MapMove example_view; ClickRunSim;
         SimSettled 0 (Rejected OtherValue)] = Some w' /\
    shown_sim_error (app w') = Some "Simulation failed."%string /\
    app_layers (N := JsFloat) (app w') = layers (N := JsFloat) (Some example_result).
Proof.
  eexists. split; [reflexivity|]. split; [reflexivity|].
  apply (@overlay_changes_only_on_success float JsFloat example_world _
           [MapClick 10%float 20%float; MapMove example_view; ClickRunSim;
            SimSettled 0 (Rejected OtherValue)]).
  - repeat constructor.
  - reflexivity.
Defined.

(** X7: a stored result is never cleared.  Once [sim] is non-null it stays
    non-null through every sequence of events, direct calls of the handlers
    included; so the badge keeps reading ['Updated'] and the overlay keeps
    its two layers. *)
Theorem result_never_cleared :
  forall (num : Type) (N : Number num) (w w' : World num)
         (events : list (Event num)),
    sim (app w) <> None ->
    run w events = Some w' ->
    sim (app w') <> None /\
    badge (app w') = "Updated"%string /\
    length (app_layers (app w')) = 2%nat.
Proof.
  intros num N w w' events Hsome Hrun.
  pose proof (@run_keeps_some_sim num events w w' Hsome Hrun) as Hsome'.
  split; [assumption|].
  unfold badge, app_layers.
  destruct (sim (app w')) as [r|]; [now split | contradiction].
Qed.

(** X7 from the example world through two overlapping runs, one failing. *)
Lemma result_never_cleared_witness :
  exists w' : World float,
    run example_world
        [InvokeRunSim; InvokeRunSim; SimSettled 1 (Rejected OtherValue);
         SimSettled 0 (Fulfilled other_result)] = Some w' /\
    sim (app w') <> None /\
    badge (app w') = "Updated"%string /\
    length (app_layers (N := JsFloat) (app w')) = 2%nat.
Proof.
  eexists. split; [reflexivity|].
  apply (@result_never_cleared float JsFloat example_world _
           [InvokeRunSim; InvokeRunSim; SimSettled 1 (Rejected OtherValue);
            SimSettled 0 (Fulfilled other_result)]).
  - discriminate.
  - reflexivity.
Defined.

(** X8: a run sends what is on screen at the click.  After a map click at
    [(lng, lat)] and a form edit [f], a click on the enabled run button
    queues one request, with [lat] and [lon] the clicked point (not swapped)
    and the edited parameters; and nothing that happens before its response
    (further clicks on the map, further edits) changes the request that is
    pending. *)
Theorem run_sends_current_inputs :
  forall (num : Type) (w : World num) (lng lat : num)
         (f : Params num -> Params num),
    run_button_disabled (app w) = false ->
    exists w1 : World num,
      run w [MapClick lng lat; ParamsChange f; ClickRunSim] = Some w1 /\
      simPending w1
      = simPending w ++ [{| request_params := f (params (app w));
                            request_lat := lat;
                            request_lon := lng |}] /\
      forall (events : list (Event num)) (w' : World num),
        Forall between_click_and_response events ->
        run w1 events = Some w' ->
        simPending w' = simPending w1.
Proof.
  intros num w lng lat f Hen.
  unfold run_button_disabled in Hen.
  eexists. split.
  - cbn [run step]. unfold run_button_disabled. cbn. rewrite Hen. reflexivity.
  - split; [reflexivity|].
    intros events w' Hall Hrun.
    apply loading_run in Hrun; [|reflexivity|assumption].
    now destruct Hrun as (_ & Hp & _).
Qed.

(** X8 from the initial world: the map is clicked at [(10, 20)], the
    diameter is set to 50 m, the run button is clicked. *)
Lemma run_sends_current_inputs_witness :
  exists w1 : World float,
    run (initial_world (N := JsFloat))
        [MapClick 10%float 20%float; ParamsChange (with_diameter_m 50%float);
         ClickRunSim] = Some w1 /\
    simPending w1
    = simPending (initial_world (N := JsFloat))
      ++ [{| request_params :=
               with_diameter_m 50%float (params (app (initial_world (N := JsFloat))));
             request_lat := 20%float;
             request_lon := 10%float |}] /\
    forall (events : list (Event float)) (w' : World float),
      Forall between_click_and_response events ->
      run w1 events = Some w' ->
      simPending w' = simPending w1.
Proof.
  apply (@run_sends_current_inputs float (initial_world (N := JsFloat))
           10%float 20%float (with_diameter_m 50%float)).
  reflexivity.
Defined.

(** ** The two pipelines side by side *)

(** X9: the two pipelines do not interfere.  An event of the simulation
    pipeline (a call or click of [runSim], a simulation response) and an
    event of the candidate search (a call or click of the refresh handler, a
    search response) give the same world in either order, and are possible
    in one order exactly when they are in the other. *)
Theorem pipelines_commute :
  forall (num : Type) (w : World num) (e1 e2 : Event num),
    sim_pipeline_event e1 = true ->
    pha_pipeline_event e2 = true ->
    run w [e1; e2] = run w [e2; e1].
Proof.
  intros num w e1 e2 H1 H2.
  destruct w as [[c s ss se ps pe pr p v] simQ phaQ].
  destruct e1 as [lng lat | v1 | f | | | k o | | | k o]; try discriminate H1;
    destruct e2 as [lng' lat' | v2 | f' | | | k' o' | | | k' o'];
    try discriminate H2;
    destruct ss, ps; cbn;
    repeat (cbn;
            match goal with
            | E : nth_error ?l ?k = _ |- context [nth_error ?l ?k] => rewrite E
            | |- context [nth_error ?l ?k] => destruct (nth_error l k) eqn:?
            end);
    cbn;
    repeat match goal with
      | o : Outcome _ |- _ => destruct o
      end;
    reflexivity.
Qed.

(** X9 in the initial world: clicking run then refresh, or refresh then
    run, leaves both pipelines loading with one call each. *)
Lemma pipelines_commute_witness :
  run (initial_world (N := JsFloat)) [ClickRunSim; ClickRefresh]
  = run (initial_world (N := JsFloat)) [ClickRefresh; ClickRunSim].
Proof.
  apply (@pipelines_commute float (initial_world (N := JsFloat))
           ClickRunSim ClickRefresh); reflexivity.
Defined.

Section RefreshFacts.
Context {num : Type}.

(** While the candidate search is [loading], nothing but its response
    touches its status or its pending call. *)
Lemma refreshing_step (w w' : World num) (e : Event num) :
  phaStatus (app w) = loading -> between_refresh_and_response e ->
  step w e = Some w' ->
  phaStatus (app w') = loading /\ phaPending w' = phaPending w.
Proof.
  intros Hl [Hui Hns] Hstep.
  destruct e as [lng lat | v | f | | | k o | | | k o];
    simpl in Hstep; try discriminate Hui; try discriminate Hns;
    try (injection Hstep as <-; now auto).
  - destruct (run_button_disabled (app w)); [discriminate|].
    injection Hstep as <-. now auto.
  - destruct (nth_error (simPending w) k); [|discriminate].
    injection Hstep as <-. destruct o; now auto.
  - unfold refresh_button_disabled in Hstep. rewrite Hl in Hstep. discriminate.
Qed.

Lemma refreshing_run (events : list (Event num)) :
  forall w w' : World num,
    phaStatus (app w) = loading ->
    Forall between_refresh_and_response events ->
    run w events = Some w' ->
    phaStatus (app w') = loading /\ phaPending w' = phaPending w.
Proof.
  induction events as [|e rest IH]; intros w w' Hl Hall Hrun; simpl in Hrun.
  - injection Hrun as <-. now auto.
  - inversion Hall as [|? ? He Hrest]; subst.
    destruct (step w e) as [w1|] eqn:Hstep; [|discriminate].
    destruct (refreshing_step _ Hl He Hstep) as (Hl1 & Hp1).
    destruct (IH _ _ Hl1 Hrest Hrun) as (Hl2 & Hp2).
    split; congruence.
Qed.

End RefreshFacts.

(** X10: the candidate search is the same three-state machine as the
    simulation.  From [idle] or [error], a click on the refresh button sets
    the status to [loading] in that turn; it stays [loading] until the
    response; a success then stores the rows and sets [idle], a failure sets
    [error] with the error's message or ['Search failed.'], leaving the list
    as it was.  No search response can be handled while the status is not
    [loading]. *)
Theorem refresh_status_machine :
  forall (num : Type) (N : Number num) (w : World num),
    ui_reachable w ->
    phaStatus (app w) = idle \/ phaStatus (app w) = error ->
    (forall k o, step w (PhaSettled k o) = None) /\
    exists w1 : World num,
      step w ClickRefresh = Some w1 /\
      phaStatus (app w1) = loading /\
      phaPending w1 = [{| phaOnly := true; limit := 6 |}] /\
      forall (events : list (Event num)) (w' : World num),
        Forall between_refresh_and_response events ->
        run w1 events = Some w' ->
        phaStatus (app w') = loading /\
        (forall rows, exists w2,
              step w' (PhaSettled 0 (Fulfilled rows)) = Some w2 /\
              phaStatus (app w2) = idle /\ phaResults (app w2) = rows) /\
        (forall e, exists w2,
              step w' (PhaSettled 0 (Rejected e)) = Some w2 /\
              phaStatus (app w2) = error /\
              phaError (app w2)
              = Some (match e with
                      | ErrorObject m => m
                      | OtherValue => "Search failed."%string
                      end) /\
              phaResults (app w2) = phaResults (app w')).
Proof.
  intros num N w Hreach Hstatus.
  assert (Hnl : phaStatus (app w) <> loading) by (destruct Hstatus; congruence).
  destruct (ui_reachable_consistent Hreach) as [_ [[Hl _] | [_ Hp]]];
    [contradiction|].
  split.
  - intros k o. simpl. rewrite Hp. now destruct k.
  - eexists. split.
    + simpl. unfold refresh_button_disabled.
      destruct (Status_eqb (phaStatus (app w)) loading) eqn:E;
        [apply Status_eqb_eq in E; contradiction | reflexivity].
    + split; [reflexivity|].
      split; [unfold invoke_refresh; simpl; now rewrite Hp|].
      intros events w' Hall Hrun.
      apply refreshing_run in Hrun; [|reflexivity|assumption].
      destruct Hrun as (Hl' & Hp').
      split; [assumption|].
      unfold invoke_refresh in Hp'. simpl in Hp'. rewrite Hp in Hp'. simpl in Hp'.
      split; intros x; simpl; rewrite Hp'; simpl; eexists; now repeat split.
Qed.

(** X10 at the freshly mounted application. *)
Lemma refresh_status_machine_witness :
  (forall k o, step (initial_world (N := JsFloat)) (PhaSettled k o) = None) /\
  exists w1 : World float,
    step (initial_world (N := JsFloat)) ClickRefresh = Some w1 /\
    phaStatus (app w1) = loading /\
    phaPending w1 = [{| phaOnly := true; limit := 6 |}] /\
    forall (events : list (Event float)) (w' : World float),
      Forall between_refresh_and_response events ->
      run w1 events = Some w' ->
      phaStatus (app w') = loading /\
      (forall rows, exists w2,
            step w' (PhaSettled 0 (Fulfilled rows)) = Some w2 /\
            phaStatus (app w2) = idle /\ phaResults (app w2) = rows) /\
      (forall e, exists w2,
            step w' (PhaSettled 0 (Rejected e)) = Some w2 /\
            phaStatus (app w2) = error /\
            phaError (app w2)
              = Some (match e with
                      | ErrorObject m => m
                      | OtherValue => "Search failed."%string
                      end) /\
            phaResults (app w2) = phaResults (app w')).
Proof.
  apply (@refresh_status_machine float JsFloat (initial_world (N := JsFloat))).
  - apply reach_initial.
  - left. reflexivity.
Defined.

(** ** The candidates panel *)

(** X11: what the candidates card shows.  The name shown for a row is never
    empty: it is the row's own name when that is present and non-empty, and
    the fixed placeholder otherwise.  The card shows the hint exactly when
    the stored list is empty, so a successful search that returns no row
    looks like no search at all; otherwise it lists the rows one for one, in
    the stored order. *)
Theorem candidates_panel :
  forall (num : Type) (st : AppState num),
    (forall row : PhaResult num,
        shown_name row <> ""%string /\
        (forall s, name row = Some s -> s <> ""%string -> shown_name row = s) /\
        (name row = None \/ name row = Some ""%string ->
         shown_name row = "Uncatalogued short name"%string)) /\
    (phaResults st = [] <-> exists text, pha_panel st = PhaHint text) /\
    (exists text, pha_panel (refresh_resume (Fulfilled []) st) = PhaHint text) /\
    (forall items, pha_panel st = PhaList items ->
                   map (fun item => fst (fst item)) items = map (@des num) (phaResults st) /\
                   map (fun item => snd (fst item)) items = map (@shown_name num) (phaResults st)).
Proof.
  intros num st. split; [|split; [|split]].
  - intros row. unfold shown_name.
    destruct (name row) as [s|]; [|now repeat split; intros; try discriminate].
    destruct (String.eqb_spec s "") as [-> | Hne].
    + repeat split; intros; congruence || discriminate.
    + repeat split.
      * assumption.
      * intros s' Hs' _. congruence.
      * intros [H | H]; [discriminate | congruence].
  - unfold pha_panel. destruct (phaResults st) as [|row rest]; split.
    + intros _. eexists. reflexivity.
    + reflexivity.
    + discriminate.
    + intros [text H]. discriminate H.
  - eexists. reflexivity.
  - unfold pha_panel. intros items Hitems.
    destruct (phaResults st) as [|row rest]; [discriminate|].
    injection Hitems as <-. cbn [map fst snd]. rewrite !map_map.
    split; reflexivity.
Qed.

(** X11 after a search that returned a named and an unnamed row. *)
Lemma candidates_panel_witness :
  pha_panel example_state_searched
  = PhaList [("99942", "Apophis", "Y");
             ("2000 SG344", "Uncatalogued short name", "Y")]%string /\
  shown_name example_row_named = "Apophis"%string /\
  map (fun item => fst (fst item))
      [("99942", "Apophis", "Y");
       ("2000 SG344", "Uncatalogued short name", "Y")]%string
  = map (@des float) (phaResults example_state_searched).
Proof.
  destruct (@candidates_panel float example_state_searched)
    as (Hname & _ & _ & Hitems).
  split; [reflexivity|]. split.
  - destruct (Hname example_row_named) as (_ & Hown & _).
    apply Hown; [reflexivity | discriminate].
  - apply (Hitems _ eq_refl).
Defined.

(** ** The overlay, ring by ring *)

(** X12: whatever the stored result and the arithmetic, each of the two
    layers holds exactly one polygon with exactly one ring, and that ring is
    a well-formed closed ring: 129 entries (the 128 default steps and the
    closing one), none of them [undefined], the last equal to the first. *)
Theorem layers_rings_wellformed :
  forall (num : Type) (N : Number num) (s : SimulationResult num)
         (l : GeoJsonLayer num),
    In l (layers (Some s)) ->
    exists ring : list (coord num),
      layer_rings l = [[ring]] /\
      length ring = 129%nat /\
      ~ In Undefined ring /\
      nth 0 ring Undefined = last ring Undefined.
Proof.
  intros num N s l Hin.
  unfold layers in Hin. cbv zeta in Hin.
  destruct Hin as [<- | [<- | []]];
    (eexists; split; [reflexivity|];
     split; [apply circle_coords_length|];
     split; [apply circle_coords_defined; reflexivity
            | apply circle_coords_closed]).
Qed.

(** X12 at the first layer drawn for the example result. *)
Lemma layers_rings_wellformed_witness :
  exists (l : GeoJsonLayer float) (ring : list (coord float)),
    nth_error (layers (N := JsFloat) (Some example_result)) 0 = Some l /\
    layer_rings l = [[ring]] /\
    length ring = 129%nat /\
    ~ In Undefined ring /\
    nth 0 ring Undefined = last ring Undefined.
Proof.
  eexists.
  destruct (@layers_rings_wellformed float JsFloat example_result
              (hd (Build_GeoJsonLayer ""
                     (Build_FeatureCollection "" []) false false [] [])
                  (layers (N := JsFloat) (Some example_result))))
    as (ring & Hring).
  - left. reflexivity.
  - exists ring. split; [reflexivity | exact Hring].
Defined.
